(** * Cough-classification inference pipeline ([src/app/inference.py])

    A shallow embedding of the audio pipeline of [inference.py]:
    [preprocess] (mel-spectrogram, decibel conversion, min-max normalisation),
    [predict_audio] (forward pass, softmax, arg-max, probability dictionary),
    [reduce_noise_and_extract_cough] (spectral gating and segment extraction)
    and the branch of the [__main__] block that chains them.

    Numbers.  Every finite floating-point value is a rational, so samples,
    magnitudes, decibels and probabilities are values of [Q]; arithmetic on
    them is exact.  The one place where the source can leave the finite
    numbers is the division of the min-max normalisation, so its result lives
    in [fval], the rationals extended with the IEEE-754 special values that
    NumPy produces there.  Where rounding decides a statement, the
    normalisation is also given in binary64 ([Binary64.normalize_f64]), on
    primitive floats.

    Collaborators.  librosa ([stft], [istft], [melspectrogram],
    [power_to_db]), NumPy's complex helpers, the exponential and the frozen
    network are not code of this repository: they are variables of the
    section. The calls to librosa's transforms and to the network are
    recorded in an event log, so that "which stage ran, on which signal" can
    be stated. *)

From Stdlib Require Import String.
From Stdlib Require Import QArith Qabs Qminmax ZArith List Bool Lia Lqa.
From Stdlib Require Qpower Qround Ascii DecimalString PrimFloat.
Import ListNotations.
Open Scope Q_scope.

(* ================================================================= *)
(** ** Python values: exceptions, results, the effect monad *)

Inductive exn : Type :=
| ValueError (msg : string)
| IndexError (msg : string)
| ZeroDivisionError (msg : string).

Inductive result (A : Type) : Type :=
| Ok (a : A)
| Err (e : exn).
Arguments Ok {A} a.
Arguments Err {A} e.

Definition signal := list Q.
Definition matrix (A : Type) := list (list A).

(** Calls that leave the repository. *)
Inductive event : Type :=
| CallStft (y : signal)
| CallIstft
| CallMelspectrogram (y : signal) (sr n_mels hop_length : Z)
| CallModel.

(** A computation yields the calls it made and a value or an exception. *)
Definition M (A : Type) : Type := (list event * result A)%type.

Definition ret {A} (a : A) : M A := ([], Ok a).
Definition raise {A} (e : exn) : M A := ([], Err e).
Definition emit (e : event) : M unit := ([e], Ok tt).
Definition lift {A} (r : result A) : M A := ([], r).

Definition bind {A B} (m : M A) (k : A -> M B) : M B :=
  match m with
  | (log, Ok a) => let '(log', r) := k a in (log ++ log', r)
  | (log, Err e) => (log, Err e)
  end.

Notation "x <- m ;; k" := (bind m (fun x => k))
  (at level 61, m at next level, right associativity).
Notation "m ;;; k" := (bind m (fun _ => k))
  (at level 61, right associativity).

Definition trace {A} (m : M A) : list event := fst m.
Definition value {A} (m : M A) : result A := snd m.

(* ================================================================= *)
(** ** Numbers *)

Definition Qltb (x y : Q) : bool :=
  match x ?= y with Lt => true | _ => false end.

Fixpoint Qsum (l : list Q) : Q :=
  match l with
  | [] => 0
  | x :: xs => x + Qsum xs
  end.

(** Finite values and the IEEE-754 specials. *)
Inductive fval : Type :=
| Fin (q : Q)
| PInf
| NInf
| NaN.

(** NumPy's [x / y] on finite floats: a zero divisor gives [nan] (for
    [0 / 0]) or a signed infinity, with a RuntimeWarning and no exception. *)
Definition np_div (x y : Q) : fval :=
  if Qeq_bool y 0 then
    match x ?= 0 with
    | Eq => NaN
    | Gt => PInf
    | Lt => NInf
    end
  else Fin (x / y).

(** [v * k] and [v + k] for a finite scalar [k]. *)
Definition fmul (v : fval) (k : Q) : fval :=
  match v with
  | Fin q => Fin (q * k)
  | PInf => match k ?= 0 with Eq => NaN | Gt => PInf | Lt => NInf end
  | NInf => match k ?= 0 with Eq => NaN | Gt => NInf | Lt => PInf end
  | NaN => NaN
  end.

Definition fadd (v : fval) (k : Q) : fval :=
  match v with
  | Fin q => Fin (q + k)
  | other => other
  end.

(* ================================================================= *)
(** ** Arrays *)

Definition mmap {A B} (f : A -> B) (m : matrix A) : matrix B :=
  map (map f) m.

Fixpoint list_min (l : list Q) : option Q :=
  match l with
  | [] => None
  | x :: xs =>
      match list_min xs with
      | None => Some x
      | Some m => Some (Qmin x m)
      end
  end.

Fixpoint list_max (l : list Q) : option Q :=
  match l with
  | [] => None
  | x :: xs =>
      match list_max xs with
      | None => Some x
      | Some m => Some (Qmax x m)
      end
  end.

Definition zero_size (op : string) : exn :=
  ValueError (String.append "zero-size array to reduction operation "
                (String.append op " which has no identity")).

(** [a.min()] and [a.max()] reduce over every cell and raise on an empty
    array. *)
Definition np_min (a : matrix Q) : result Q :=
  match list_min (concat a) with
  | Some m => Ok m
  | None => Err (zero_size "minimum")
  end.

Definition np_max (a : matrix Q) : result Q :=
  match list_max (concat a) with
  | Some m => Ok m
  | None => Err (zero_size "maximum")
  end.

(** [np.mean] of one row of a spectrum, which has at least one frame; the
    mean of an empty row ([nan] in NumPy) is outside the model. *)
Definition np_mean (row : list Q) : Q :=
  Qsum row / inject_Z (Z.of_nat (length row)).

(** Python's [l[a:b]] for integer bounds: a negative bound counts from the
    end, and both are clamped to the list. *)
Definition clamp_index {A} (l : list A) (i : Z) : nat :=
  let n := Z.of_nat (length l) in
  Z.to_nat (if (i <? 0)%Z then Z.max 0 (i + n) else Z.min i n).

Definition py_slice {A} (l : list A) (a b : Z) : list A :=
  let i := clamp_index l a in
  let j := clamp_index l b in
  firstn (j - i) (skipn i l).

(** [np.where(p(a))[0]]: the indices of the cells satisfying [p], ascending. *)
Fixpoint np_where_from (p : Q -> bool) (i : Z) (a : list Q) : list Z :=
  match a with
  | [] => []
  | x :: xs =>
      if p x then i :: np_where_from p (i + 1)%Z xs
      else np_where_from p (i + 1)%Z xs
  end.

Definition np_where (p : Q -> bool) (a : list Q) : list Z :=
  np_where_from p 0%Z a.

(** [m[f][t]], when both indices are in range. *)
Definition cell {A} (m : matrix A) (f t : nat) : option A :=
  match nth_error m f with
  | Some row => nth_error row t
  | None => None
  end.

(** Rank-4 tensors, as nested lists; [unsqueeze(0)] adds a leading axis of
    length one. *)
Definition tensor4 := list (list (matrix fval)).
Definition unsqueeze0 {A} (x : A) : list A := [x].

Definition is_matrix {A} (m : matrix A) (rows cols : nat) : Prop :=
  length m = rows /\ Forall (fun r => length r = cols) m.

Definition has_shape4 (t : tensor4) (d0 d1 d2 d3 : nat) : Prop :=
  length t = d0 /\
  Forall (fun c => length c = d1 /\
                   Forall (fun m => is_matrix m d2 d3) c) t.

(** A tensor without NaN or infinite cells. *)
Definition is_finite (v : fval) : Prop := exists q, v = Fin q.

Definition tensor_finite (t : tensor4) : Prop :=
  Forall (Forall (Forall (Forall is_finite))) t.

(** Python lists are indexed from zero and raise [IndexError] past the end. *)
Definition py_index {A} (l : list A) (i : nat) : result A :=
  match nth_error l i with
  | Some x => Ok x
  | None => Err (IndexError "index out of range")
  end.

(** A Python [dict] from class names to probabilities: insertion-ordered, and
    writing an existing key replaces its value in place. *)
Definition dict := list (string * Q).

Fixpoint dict_set (d : dict) (k : string) (v : Q) : dict :=
  match d with
  | [] => [(k, v)]
  | (k', v') :: d' =>
      if String.eqb k' k then (k', v) :: d'
      else (k', v') :: dict_set d' k v
  end.

Fixpoint dict_get (d : dict) (k : string) : option Q :=
  match d with
  | [] => None
  | (k', v') :: d' => if String.eqb k' k then Some v' else dict_get d' k
  end.

Definition dict_keys (d : dict) : list string := map fst d.
Definition dict_values (d : dict) : list Q := map snd d.

(** [torch.argmax] of a vector: the index of the maximum, the first one when
    the maximum is attained several times; an empty vector is rejected. *)
Fixpoint argmax_from (best_i : nat) (best : Q) (i : nat) (l : list Q) : nat :=
  match l with
  | [] => best_i
  | x :: xs =>
      if Qltb best x then argmax_from i x (S i) xs
      else argmax_from best_i best (S i) xs
  end.

Definition torch_argmax (l : list Q) : result nat :=
  match l with
  | [] => Err (IndexError "argmax(): Expected reduction dim to be specified for input.numel() == 0")
  | x :: xs => Ok (argmax_from 0 x 1 xs)
  end.

(** [librosa.get_duration(y=y, sr=sr)]: the number of samples over the
    sampling rate. *)
Definition get_duration (y : signal) (sr : Z) : result Q :=
  if (sr =? 0)%Z then Err (ZeroDivisionError "float division by zero")
  else Ok (inject_Z (Z.of_nat (length y)) / inject_Z sr).

(** Subtraction of a column of per-row thresholds from a matrix,
    [magnitude - noise_threshold] with [noise_threshold] of shape (rows, 1).
    Both operands come from STFTs with the same number of frequency bins;
    operands with different numbers of rows are rejected (the broadcasting
    of a single row is not modelled). *)
Definition np_sub_column (a : matrix Q) (col : list Q) : result (matrix Q) :=
  if Nat.eqb (length a) (length col) then
    Ok (map (fun '(row, c) => map (fun x => x - c) row) (combine a col))
  else Err (ValueError "operands could not be broadcast together").

(** Cell-wise combination of two matrices of the same shape. *)
Definition mzip {A B C} (f : A -> B -> C) (a : matrix A) (b : matrix B)
  : matrix C :=
  map (fun '(ra, rb) => map (fun '(x, y) => f x y) (combine ra rb))
      (combine a b).

Definition amplitude_threshold : Q := 5 # 100.

Definition no_cough : exn := ValueError "No cough detected in the audio.".

Definition is_active (x : Q) : bool := Qltb amplitude_threshold (Qabs x).

(** A sample that does not exceed the threshold. *)
Definition quiet (x : Q) : Prop := ~ amplitude_threshold < Qabs x.

(** Lines 120-121: [max(0, cough_indices[0] - sr // 2)] and
    [min(len(y_denoised), start_idx + sr)]. *)
Definition start_idx_of (first sr : Z) : Z := Z.max 0 (first - sr / 2).

Definition end_idx_of (len start_idx sr : Z) : Z := Z.min len (start_idx + sr).

(** Lines 112-124: the segment around the first sample above the amplitude
    threshold. *)
Definition extract_cough (y_denoised : signal) (sr : Z) : result signal :=
  let cough_indices := np_where is_active y_denoised in
  match cough_indices with
  | [] => Err no_cough
  | first :: _ =>
      let start_idx := start_idx_of first sr in
      let end_idx := end_idx_of (Z.of_nat (length y_denoised)) start_idx sr in
      Ok (py_slice y_denoised start_idx end_idx)
  end.

(** The dictionary comprehension of [predict_audio],
    [{class_names[i]: probs[i].item() for i in range(len(class_names))}]. *)
Fixpoint probabilities_loop (class_names : list string) (probs : list Q)
    (idxs : list nat) (acc : dict) : result dict :=
  match idxs with
  | [] => Ok acc
  | i :: rest =>
      match py_index class_names i, py_index probs i with
      | Ok k, Ok p => probabilities_loop class_names probs rest (dict_set acc k p)
      | Err e, _ => Err e
      | _, Err e => Err e
      end
  end.

Definition probabilities_of (class_names : list string) (probs : list Q)
  : result dict :=
  probabilities_loop class_names probs (seq 0 (length class_names)) [].

(* ================================================================= *)
(** ** The normalisation in binary64

    Lines 36-37 as NumPy evaluates them on a float64 array (the dtype of a
    signal read by [soundfile]), every operation rounded to binary64. The
    array holds finite decibels. *)

Module Binary64.
Import PrimFloat.
Local Open Scope float_scope.

Definition f64_min (a b : float) : float := if ltb b a then b else a.
Definition f64_max (a b : float) : float := if ltb a b then b else a.

Fixpoint f64_reduce (pick : float -> float -> float) (l : list float)
  : option float :=
  match l with
  | [] => None
  | x :: xs =>
      match f64_reduce pick xs with
      | None => Some x
      | Some m => Some (pick x m)
      end
  end.

Definition normalize_f64 (mel_spec_db : matrix float)
    (norm_range : float * float) : option (matrix float) :=
  let '(mel_min, mel_max) := norm_range in
  match f64_reduce f64_min (concat mel_spec_db),
        f64_reduce f64_max (concat mel_spec_db) with
  | Some lo, Some hi =>
      let scaled := mmap (fun x => (x - lo) / (hi - lo)) mel_spec_db in
      Some (mmap (fun v => v * (mel_max - mel_min) + mel_min) scaled)
  | _, _ => None
  end.

(** Every cell within [[low, high]]; some cell equal to [v]. *)
Definition within_range (norm_range : float * float) (cells : matrix float)
  : bool :=
  forallb (forallb (fun c => leb (fst norm_range) c && leb c (snd norm_range)))
          cells.

Definition attains (v : float) (cells : matrix float) : bool :=
  existsb (existsb (fun c => eqb c v)) cells.

(** Three decibel values, the largest one 0 dB as [power_to_db] with
    [ref=np.max] gives it, and the range from -1 to 0.3. *)
Definition sample_db : matrix float := [[-80; -40; 0]].
Definition default_range : float * float := (0, 1).

End Binary64.

(* ================================================================= *)
(** ** The report and the storage keys of the [__main__] block *)

Definition newline : string := String (Ascii.ascii_of_nat 10) EmptyString.

(** Rounding to the nearest integer, ties to the even one: the rounding of
    Python's float formatting. *)
Definition round_half_even (x : Q) : Z :=
  let f := Qround.Qfloor x in
  match Qcompare (x - inject_Z f) (1 # 2) with
  | Lt => f
  | Gt => (f + 1)%Z
  | Eq => if Z.even f then f else (f + 1)%Z
  end.

Definition digit_char (d : Z) : Ascii.ascii :=
  Ascii.ascii_of_nat (48 + Z.to_nat d).

Definition decimal_point : Ascii.ascii := Ascii.ascii_of_nat 46.

(** [f"{x:.4f}"] for a finite [x]: sign, integer part, point, four
    decimals. *)
Definition format_4f (x : Q) : string :=
  let n := round_half_even (Qabs x * 10000) in
  let whole := (n / 10000)%Z in
  let frac := (n mod 10000)%Z in
  ((if Qltb x 0 then "-" else "") ++
   DecimalString.NilZero.string_of_uint (N.to_uint (Z.to_N whole)) ++
   String decimal_point
     (String (digit_char (frac / 1000))
        (String (digit_char (frac / 100 mod 10))
           (String (digit_char (frac / 10 mod 10))
              (String (digit_char (frac mod 10)) EmptyString)))))%string.

(** Lines 202-206: the texts written to [output.txt], one per [f.write]. *)
Definition report (pred : string) (probs : dict) : list string :=
  ("Prediction: " ++ pred ++ newline)%string ::
  ("Class probabilities:" ++ newline)%string ::
  map (fun '(cls, prob) =>
         ("  " ++ cls ++ ": " ++ format_4f prob ++ newline)%string)
      probs.

(** Lines 148, 153 and 210. [session_id] is [os.getenv('SESSION_ID')],
    [None] when the variable is unset; an empty string is as false as
    [None]. *)
Definition session_prefix (session_id : option string) : string :=
  match session_id with
  | Some (String c s) => (String c s ++ "/")%string
  | Some EmptyString => EmptyString
  | None => EmptyString
  end.

Definition input_prefix (session_id : option string) : string :=
  (session_prefix session_id ++ "input/")%string.

Definition output_key (session_id : option string) : string :=
  (session_prefix session_id ++ "output.txt")%string.

(* ================================================================= *)
(** ** Stand-in collaborators and sample inputs

    Small executable collaborators, used to run the pipeline on concrete
    signals. *)

(** One frequency bin per "spectrum", one complex value per sample. *)
Definition toy_complex : Type := (Q * Q)%type.
Definition toy_stft (y : signal) : matrix toy_complex :=
  [map (fun x => (Qabs x, if Qltb x 0 then 1 else 0)) y].
Definition toy_istft (s : matrix toy_complex) : signal :=
  match s with
  | [] => []
  | row :: _ => map (fun '(m, p) => if Qeq_bool p 0 then m else - m) row
  end.
Definition toy_abs (c : toy_complex) : Q := fst c.
Definition toy_magnitude (c : toy_complex) : Q := Qabs (fst c).
Definition toy_angle (c : toy_complex) : Q := snd c.
Definition toy_polar (m p : Q) : toy_complex := (m, p).

(** A power "spectrogram" with [n_mels] rows and [1 + len(y) // hop_length]
    frames, every cell of frame [t] holding the square of the sample at
    [t * hop_length]. *)
Definition toy_melspectrogram (y : signal) (sr n_mels hop_length : Z)
  : matrix Q :=
  let frames := seq 0 (S (length y / Z.to_nat hop_length)) in
  repeat (map (fun t => let x := nth (t * Z.to_nat hop_length) y 0 in x * x)
              frames)
         (Z.to_nat n_mels).

(** Decibels relative to the maximum, shape preserved: here simply the
    difference to the largest cell. A silent spectrogram maps to all zeros, as
    with librosa. *)
Definition toy_power_to_db (s : matrix Q) : matrix Q :=
  match list_max (concat s) with
  | Some mx => mmap (fun x => x - mx) s
  | None => s
  end.

Definition toy_exp (x : Q) : Q := 1 + x * x.

(** Networks with two and with four logits, against three class names. *)
Definition narrow_model (t : tensor4) : list Q := [0; 2].
Definition wide_model (t : tensor4) : list Q := [0; 2; 1; 1].
Definition toy_model (t : tensor4) : list Q := [0; 2; 1].

(** One second of silence at 22050 Hz. *)
Definition silent_audio : signal := repeat 0 (Z.to_nat 22050).

(** Four samples of a ramp. *)
Definition ramp_audio : signal := [0; 1; 2; 3].

(** The feature tensor of the ramp with two mel bands and a hop of two
    samples, under the stand-in collaborators. *)
Definition ramp_tensor : tensor4 :=
  [[[[Fin (0 # 4); Fin (4 # 4); Fin (0 # 4)];
     [Fin (0 # 4); Fin (4 # 4); Fin (0 # 4)]]]].

(** The segment extracted from [short_cough] at 3 Hz, as the stand-in
    denoiser returns its samples. *)
Definition short_cough_segment : signal := [0 # 2; 2 # 2; 0 # 2].

(** Two seconds at 3 Hz with one loud sample, and two seconds that stay
    below the amplitude threshold. *)
Definition short_cough : signal := [0; 0; 0; 1; 0; 0].
Definition quiet_audio : signal := [0; 1 # 50; - (1 # 25); 1 # 100; 0; 0].

Definition class_names_main : list string :=
  ["neither"; "viral"; "bacterial"]%string.

(* ================================================================= *)
(** ** The pipeline *)

Section Pipeline.

(** Complex spectra: [np.abs], [np.angle] and [m * np.exp(1j * p)]. *)
Variable complex : Type.
Variable np_abs : complex -> Q.
Variable np_angle : complex -> Q.
Variable polar : Q -> Q -> complex.

(** librosa, with the defaults the source relies on ([n_fft = 2048]). *)
Variable stft : signal -> matrix complex.
Variable istft : matrix complex -> signal.
Variable melspectrogram : signal -> Z -> Z -> Z -> matrix Q.
Variable power_to_db : matrix Q -> matrix Q.

(** The frozen network in evaluation mode, from a feature tensor to the
    logits of its single batch row, and the exponential of [torch.softmax].
    The logits are rationals: this is the network on tensors with finite
    cells. On a tensor that holds NaN a real network returns NaN logits,
    which this type cannot express; what is stated about the values of the
    probabilities is stated for finite tensors. *)
Variable model : tensor4 -> list Q.
Variable exp : Q -> Q.
Hypothesis exp_pos : forall x, 0 < exp x.

Definition call_stft (y : signal) : M (matrix complex) :=
  emit (CallStft y) ;;; ret (stft y).

Definition call_istft (s : matrix complex) : M signal :=
  emit CallIstft ;;; ret (istft s).

Definition call_melspectrogram (y : signal) (sr n_mels hop_length : Z)
  : M (matrix Q) :=
  emit (CallMelspectrogram y sr n_mels hop_length) ;;;
  ret (melspectrogram y sr n_mels hop_length).

Definition call_model (t : tensor4) : M (list Q) :=
  emit CallModel ;;; ret (model t).

(** [torch.softmax]: [exp(x_i) / sum_j exp(x_j)], in exact arithmetic: the
    probabilities sum to exactly 1, where float32 reaches 1 only up to
    rounding. *)
Definition softmax (logits : list Q) : list Q :=
  let total := Qsum (map exp logits) in
  map (fun x => exp x / total) logits.

(** Lines 34-37: min-max scaling to [0, 1], then to [norm_range]. Finite
    cells are computed exactly; the floating-point code agrees with this at
    the end points for the default range [(0, 1)] and only up to rounding
    for other ranges (see [Binary64.normalize_f64]). *)
Definition normalize (mel_spec_db : matrix Q) (norm_range : Q * Q)
  : result (matrix fval) :=
  let '(mel_min, mel_max) := norm_range in
  match np_min mel_spec_db, np_max mel_spec_db with
  | Ok lo, Ok hi =>
      let scaled := mmap (fun x => np_div (x - lo) (hi - lo)) mel_spec_db in
      Ok (mmap (fun v => fadd (fmul v (mel_max - mel_min)) mel_min) scaled)
  | Err e, _ => Err e
  | _, Err e => Err e
  end.

Definition preprocess (audio : signal) (sr n_mels hop_length : Z)
    (duration : Q) (norm_range : Q * Q) : M tensor4 :=
  mel_spec <- call_melspectrogram audio sr n_mels hop_length ;;
  let mel_spec_db := power_to_db mel_spec in
  normalized <- lift (normalize mel_spec_db norm_range) ;;
  ret (unsqueeze0 (unsqueeze0 normalized)).

(** [predict_audio]; the device only says where the tensors live. The call
    to [preprocess] leaves [norm_range] at its default [(0, 1)]. *)
Definition predict_audio (audio : signal) (class_names : list string)
    (sr n_mels hop_length : Z) (duration : Q) : M (string * dict) :=
  mel_tensor <- preprocess audio sr n_mels hop_length duration (0, 1) ;;
  outputs <- call_model mel_tensor ;;
  let probs := softmax outputs in
  predicted_class_idx <- lift (torch_argmax probs) ;;
  predicted_class_name <- lift (py_index class_names predicted_class_idx) ;;
  probabilities <- lift (probabilities_of class_names probs) ;;
  ret (predicted_class_name, probabilities).

(** Lines 94-96: the mean power of each frequency bin of the noise
    sample's spectrum. *)
Definition noise_power_of (noise_stft : matrix complex) : list Q :=
  map (fun row => np_mean (map (fun c => np_abs c ^ 2) row)) noise_stft.

(** Lines 102-106: [np.maximum(magnitude - noise_threshold, 0)]. *)
Definition gate (magnitude : matrix Q) (noise_threshold : list Q)
  : result (matrix Q) :=
  match np_sub_column magnitude noise_threshold with
  | Ok d => Ok (mmap (fun x => Qmax x 0) d)
  | Err e => Err e
  end.

(** Lines 94-110: spectral gating, up to the denoised waveform. *)
Definition spectral_gating (y : signal) (sr : Z) (noise_reduction_level : Q)
  : M signal :=
  let noise_sample := py_slice y 0 (Z.quot sr 2) in
  noise_stft <- call_stft noise_sample ;;
  let noise_power := noise_power_of noise_stft in
  stft_y <- call_stft y ;;
  let magnitude := mmap np_abs stft_y in
  let phase := mmap np_angle stft_y in
  let noise_threshold := map (Qmult noise_reduction_level) noise_power in
  magnitude_denoised <- lift (gate magnitude noise_threshold) ;;
  let stft_denoised := mzip polar magnitude_denoised phase in
  call_istft stft_denoised.

Definition reduce_noise_and_extract_cough (y : signal) (sr : Z)
    (noise_reduction_level : Q) : M signal :=
  y_denoised <- spectral_gating y sr noise_reduction_level ;;
  lift (extract_cough y_denoised sr).

(** Lines 184-196 of the [__main__] block, after the audio is loaded. Both
    calls use the defaults of their optional parameters. *)
Definition main_pipeline (y : signal) (sr : Z) : M (string * dict) :=
  duration <- lift (get_duration y sr) ;;
  cough <- (if Qltb 1 duration
            then reduce_noise_and_extract_cough y sr (3 # 2)
            else ret y) ;;
  predict_audio cough class_names_main 22050 128 512 1.

Definition is_denoising_call (e : event) : bool :=
  match e with
  | CallStft _ | CallIstft => true
  | _ => false
  end.

Definition is_inference_call (e : event) : bool :=
  match e with
  | CallMelspectrogram _ _ _ _ | CallModel => true
  | _ => false
  end.

(* --------------------------------------------------------------- *)
(** *** Comparisons and reductions *)

Lemma Qltb_lt (x y : Q) : Qltb x y = true <-> x < y.
Proof.
  unfold Qltb. rewrite Qlt_alt.
  destruct (x ?= y); split; intro H; congruence.
Qed.

Lemma Qltb_nlt (x y : Q) : Qltb x y = false <-> y <= x.
Proof.
  split; intro H.
  - apply Qnot_lt_le. intro L. apply Qltb_lt in L. congruence.
  - destruct (Qltb x y) eqn:E; [|reflexivity].
    apply Qltb_lt in E. exfalso. apply (Qlt_not_le _ _ E H).
Qed.

Lemma list_min_spec (l : list Q) (m : Q) :
  list_min l = Some m ->
  (forall x, In x l -> m <= x) /\ (exists x, In x l /\ x == m).
Proof.
  revert m. induction l as [|a l IH]; intros m H; simpl in H; [discriminate|].
  destruct (list_min l) as [m'|] eqn:E.
  - injection H as <-. destruct (IH m' eq_refl) as [Hle [w [Hin Hw]]].
    split.
    + intros x [<-|Hx].
      * apply Q.le_min_l.
      * eapply Qle_trans; [apply Q.le_min_r | auto].
    + destruct (Q.min_dec a m') as [e|e].
      * exists a. split; [now left | now rewrite e].
      * exists w. split; [now right | now rewrite e].
  - injection H as <-. destruct l; [|simpl in E; destruct (list_min l); discriminate].
    split.
    + intros x [<-|[]]. apply Qle_refl.
    + exists a. split; [now left | reflexivity].
Qed.

Lemma list_max_spec (l : list Q) (m : Q) :
  list_max l = Some m ->
  (forall x, In x l -> x <= m) /\ (exists x, In x l /\ x == m).
Proof.
  revert m. induction l as [|a l IH]; intros m H; simpl in H; [discriminate|].
  destruct (list_max l) as [m'|] eqn:E.
  - injection H as <-. destruct (IH m' eq_refl) as [Hle [w [Hin Hw]]].
    split.
    + intros x [<-|Hx].
      * apply Q.le_max_l.
      * eapply Qle_trans; [auto | apply Q.le_max_r].
    + destruct (Q.max_dec a m') as [e|e].
      * exists a. split; [now left | now rewrite e].
      * exists w. split; [now right | now rewrite e].
  - injection H as <-. destruct l; [|simpl in E; destruct (list_max l); discriminate].
    split.
    + intros x [<-|[]]. apply Qle_refl.
    + exists a. split; [now left | reflexivity].
Qed.

Lemma np_min_spec (a : matrix Q) (lo : Q) :
  np_min a = Ok lo ->
  (forall row x, In row a -> In x row -> lo <= x) /\
  (exists row x, In row a /\ In x row /\ x == lo).
Proof.
  unfold np_min. destruct (list_min (concat a)) as [m|] eqn:E; [|discriminate].
  intro H. injection H as <-.
  destruct (list_min_spec _ _ E) as [Hle [x [Hin Hx]]]. split.
  - intros row x' Hr Hx'. apply Hle. apply in_concat. eauto.
  - apply in_concat in Hin as [row [Hr Hin]]. eauto.
Qed.

Lemma np_max_spec (a : matrix Q) (hi : Q) :
  np_max a = Ok hi ->
  (forall row x, In row a -> In x row -> x <= hi) /\
  (exists row x, In row a /\ In x row /\ x == hi).
Proof.
  unfold np_max. destruct (list_max (concat a)) as [m|] eqn:E; [|discriminate].
  intro H. injection H as <-.
  destruct (list_max_spec _ _ E) as [Hle [x [Hin Hx]]]. split.
  - intros row x' Hr Hx'. apply Hle. apply in_concat. eauto.
  - apply in_concat in Hin as [row [Hr Hin]]. eauto.
Qed.

Lemma mmap_ext_in {A B} (f g : A -> B) (m : matrix A) :
  (forall row x, In row m -> In x row -> f x = g x) ->
  mmap f m = mmap g m.
Proof.
  intro H. unfold mmap. apply map_ext_in. intros row Hr.
  apply map_ext_in. intros x Hx. eauto.
Qed.

Lemma in_mmap {A B} (f : A -> B) (m : matrix A) (row' : list B) (y : B) :
  In row' (mmap f m) -> In y row' ->
  exists row x, In row m /\ In x row /\ y = f x.
Proof.
  unfold mmap. intros Hr Hy. apply in_map_iff in Hr as [row [<- Hr]].
  apply in_map_iff in Hy as [x [<- Hx]]. eauto.
Qed.

Lemma mmap_mmap {A B C} (f : A -> B) (g : B -> C) (m : matrix A) :
  mmap g (mmap f m) = mmap (fun x => g (f x)) m.
Proof.
  unfold mmap. rewrite map_map. apply map_ext. intro row. apply map_map.
Qed.

Lemma is_matrix_mmap {A B} (f : A -> B) (m : matrix A) (r c : nat) :
  is_matrix m r c -> is_matrix (mmap f m) r c.
Proof.
  unfold is_matrix, mmap. intros [Hr Hc]. split.
  - now rewrite length_map.
  - apply Forall_map. eapply Forall_impl; [|exact Hc].
    intros row Hrow. simpl. now rewrite length_map.
Qed.

(* --------------------------------------------------------------- *)
(** *** Min-max normalisation *)




(** With a spread of values the division is an ordinary one. *)
Lemma normalize_spread (db : matrix Q) (lo hi low high : Q) :
  np_min db = Ok lo -> np_max db = Ok hi -> lo < hi ->
  normalize db (low, high) =
  Ok (mmap (fun x => Fin ((x - lo) / (hi - lo) * (high - low) + low)) db).
Proof.
  intros Hmin Hmax Hlt. unfold normalize. rewrite Hmin, Hmax.
  rewrite mmap_mmap. f_equal. apply mmap_ext_in. intros row x _ _.
  unfold np_div.
  destruct (Qeq_bool (hi - lo) 0) eqn:E; [|reflexivity].
  apply Qeq_bool_eq in E. lra.
Qed.

(** Without one, every cell is [0 / 0]. *)
Lemma normalize_constant (db : matrix Q) (lo hi low high : Q) :
  np_min db = Ok lo -> np_max db = Ok hi -> lo == hi ->
  normalize db (low, high) = Ok (mmap (fun _ => NaN) db).
Proof.
  intros Hmin Hmax Heq. unfold normalize. rewrite Hmin, Hmax.
  rewrite mmap_mmap. f_equal. apply mmap_ext_in. intros row x Hr Hx.
  destruct (np_min_spec _ _ Hmin) as [Hle _].
  destruct (np_max_spec _ _ Hmax) as [Hge _].
  specialize (Hle row x Hr Hx). specialize (Hge row x Hr Hx).
  unfold np_div.
  assert (E : Qeq_bool (hi - lo) 0 = true) by (apply Qeq_eq_bool; lra).
  rewrite E.
  assert (C : (x - lo ?= 0) = Eq) by (apply Qeq_alt; lra).
  rewrite C. reflexivity.
Qed.

Lemma normalize_shape (db : matrix Q) (nr : Q * Q) (cells : matrix fval)
    (r c : nat) :
  normalize db nr = Ok cells -> is_matrix db r c -> is_matrix cells r c.
Proof.
  unfold normalize. destruct nr as [low high].
  destruct (np_min db); [|discriminate].
  destruct (np_max db); [|discriminate].
  intros H Hm. injection H as <-. now do 2 apply is_matrix_mmap.
Qed.

Lemma np_min_nonempty (a : matrix Q) (r c : nat) :
  is_matrix a (S r) (S c) -> exists lo, np_min a = Ok lo.
Proof.
  intros [Hr Hc]. unfold np_min.
  destruct a as [|row a]; [discriminate|].
  inversion Hc as [|? ? Hrow _]; subst.
  destruct row as [|x row]; [discriminate|]. simpl.
  destruct (list_min (row ++ concat a)); eauto.
Qed.

Lemma np_max_nonempty (a : matrix Q) (r c : nat) :
  is_matrix a (S r) (S c) -> exists hi, np_max a = Ok hi.
Proof.
  intros [Hr Hc]. unfold np_max.
  destruct a as [|row a]; [discriminate|].
  inversion Hc as [|? ? Hrow _]; subst.
  destruct row as [|x row]; [discriminate|]. simpl.
  destruct (list_max (row ++ concat a)); eauto.
Qed.

(* --------------------------------------------------------------- *)
(** *** [preprocess] *)

Lemma preprocess_value audio sr n_mels hop_length duration norm_range :
  value (preprocess audio sr n_mels hop_length duration norm_range) =
  match normalize (power_to_db (melspectrogram audio sr n_mels hop_length))
                  norm_range with
  | Ok cells => Ok [[cells]]
  | Err e => Err e
  end.
Proof.
  unfold preprocess, call_melspectrogram, value, bind, emit, ret, lift.
  simpl. destruct (normalize _ _); reflexivity.
Qed.

Lemma preprocess_trace audio sr n_mels hop_length duration norm_range :
  trace (preprocess audio sr n_mels hop_length duration norm_range) =
  [CallMelspectrogram audio sr n_mels hop_length].
Proof.
  unfold preprocess, call_melspectrogram, trace, bind, emit, ret, lift.
  simpl. destruct (normalize _ _); reflexivity.
Qed.

(** C1 (the code does not meet the claim). When the decibel spectrogram is
    constant, [max(db) == min(db)], [preprocess] raises nothing and returns
    a tensor in which every cell is the NaN of [0 / 0]: neither the midpoint
    of [norm_range] nor an explicit error. *)
Theorem preprocess_constant_spectrogram_is_nan
    audio sr n_mels hop_length duration low high lo hi :
  let db := power_to_db (melspectrogram audio sr n_mels hop_length) in
  np_min db = Ok lo -> np_max db = Ok hi -> lo == hi ->
  value (preprocess audio sr n_mels hop_length duration (low, high)) =
    Ok [[mmap (fun _ => NaN) db]] /\
  (exists row, In row (mmap (fun _ : Q => NaN) db) /\ In NaN row).
Proof.
  intros db Hmin Hmax Heq. split.
  - rewrite preprocess_value. fold db.
    now rewrite (normalize_constant db lo hi low high Hmin Hmax Heq).
  - destruct (np_min_spec _ _ Hmin) as [_ [row [x [Hr [Hx _]]]]].
    exists (map (fun _ => NaN) row). split.
    + unfold mmap. apply in_map_iff. eauto.
    + apply in_map_iff. eauto.
Qed.


(** C9. librosa returns a spectrogram of [n_mels] rows and
    [1 + len(audio) // hop_length] frames, and the decibel conversion keeps
    that shape. Then, for [n_mels >= 1], [preprocess] returns a rank-4
    tensor of shape [(1, 1, n_mels, frames)] with at least one frame. *)
Theorem preprocess_shape
    audio sr n_mels hop_length duration norm_range frames :
  (0 < n_mels)%Z ->
  frames = S (length audio / Z.to_nat hop_length) ->
  is_matrix (melspectrogram audio sr n_mels hop_length)
            (Z.to_nat n_mels) frames ->
  (forall s r c, is_matrix s r c -> is_matrix (power_to_db s) r c) ->
  exists t,
    value (preprocess audio sr n_mels hop_length duration norm_range) = Ok t /\
    has_shape4 t 1 1 (Z.to_nat n_mels) frames /\
    (1 <= frames)%nat.
Proof.
  intros Hn Hf Hmel Hdb. apply Hdb in Hmel.
  set (db := power_to_db (melspectrogram audio sr n_mels hop_length)) in *.
  destruct (Z.to_nat n_mels) as [|r] eqn:En; [lia|].
  destruct frames as [|c]; [discriminate|]. clear Hf.
  destruct (np_min_nonempty _ _ _ Hmel) as [lo Hlo].
  destruct (np_max_nonempty _ _ _ Hmel) as [hi Hhi].
  rewrite preprocess_value. fold db.
  destruct (normalize db norm_range) as [cells|e] eqn:E.
  - exists [[cells]]. split; [reflexivity|]. split; [|lia].
    pose proof (normalize_shape _ _ _ _ _ E Hmel) as Hs.
    unfold has_shape4. split; [reflexivity|].
    repeat constructor. exact (proj1 Hs). exact (proj2 Hs).
  - exfalso. unfold normalize in E. destruct norm_range.
    rewrite Hlo, Hhi in E. discriminate.
Qed.

(** C10. [preprocess] ignores its [duration] parameter: any two durations
    give the same tensor and the same calls, and the signal handed to
    librosa is the whole input, neither trimmed nor padded. *)
Theorem preprocess_ignores_duration
    audio sr n_mels hop_length d1 d2 norm_range :
  preprocess audio sr n_mels hop_length d1 norm_range =
    preprocess audio sr n_mels hop_length d2 norm_range /\
  trace (preprocess audio sr n_mels hop_length d1 norm_range) =
    [CallMelspectrogram audio sr n_mels hop_length].
Proof.
  split; [reflexivity | apply preprocess_trace].
Qed.

(* --------------------------------------------------------------- *)
(** *** The effect monad *)

Lemma value_bind {A B} (m : M A) (k : A -> M B) :
  value (bind m k) =
  match value m with
  | Ok a => value (k a)
  | Err e => Err e
  end.
Proof.
  destruct m as [log [a|e]]; simpl; [|reflexivity].
  destruct (k a); reflexivity.
Qed.

Lemma trace_bind {A B} (m : M A) (k : A -> M B) :
  trace (bind m k) =
  trace m ++ match value m with
             | Ok a => trace (k a)
             | Err _ => []
             end.
Proof.
  destruct m as [log [a|e]]; simpl.
  - destruct (k a); reflexivity.
  - now rewrite app_nil_r.
Qed.

Lemma value_lift {A} (r : result A) : value (lift r) = r.
Proof. reflexivity. Qed.

Lemma trace_lift {A} (r : result A) : trace (lift r) = [].
Proof. reflexivity. Qed.

(* --------------------------------------------------------------- *)
(** *** Detection of the first active sample *)

Lemma is_active_true (x : Q) :
  is_active x = true <-> amplitude_threshold < Qabs x.
Proof. apply Qltb_lt. Qed.

Lemma is_active_false (x : Q) : is_active x = false <-> quiet x.
Proof.
  unfold quiet. rewrite <- is_active_true.
  destruct (is_active x); split; intro H; congruence.
Qed.

Lemma np_where_from_nil (p : Q -> bool) (i : Z) (a : list Q) :
  np_where_from p i a = [] <-> Forall (fun x => p x = false) a.
Proof.
  revert i. induction a as [|x xs IH]; intro i; simpl.
  - split; auto.
  - destruct (p x) eqn:E.
    + split; [discriminate|]. intro H. inversion H. congruence.
    + rewrite IH. split; intro H; [now constructor | now inversion H].
Qed.

(** The head of [np.where] is the least index whose cell satisfies [p]. *)
Lemma np_where_from_head (p : Q -> bool) (i first : Z) (a : list Q)
    (rest : list Z) :
  np_where_from p i a = first :: rest ->
  exists k x,
    first = (i + Z.of_nat k)%Z /\
    nth_error a k = Some x /\ p x = true /\
    Forall (fun x => p x = false) (firstn k a).
Proof.
  revert i. induction a as [|x xs IH]; intros i H; simpl in H; [discriminate|].
  destruct (p x) eqn:E.
  - injection H as <- _. exists 0%nat, x. simpl.
    repeat split; auto. lia.
  - destruct (IH _ H) as [k [x' [Hf [Hn [Hp Hq]]]]].
    exists (S k), x'. simpl. repeat split; auto. lia.
Qed.

Lemma np_where_from_exists (p : Q -> bool) (i : Z) (a : list Q) :
  Exists (fun x => p x = true) a ->
  exists first rest, np_where_from p i a = first :: rest.
Proof.
  intro H. destruct (np_where_from p i a) as [|f r] eqn:E; [|eauto].
  apply np_where_from_nil in E. exfalso.
  apply Exists_exists in H as [x [Hin Hx]].
  rewrite Forall_forall in E. specialize (E x Hin). congruence.
Qed.

Lemma extract_cough_fails_iff (yd : signal) (sr : Z) :
  extract_cough yd sr = Err no_cough <-> Forall quiet yd.
Proof.
  unfold extract_cough, np_where.
  destruct (np_where_from is_active 0 yd) as [|f r] eqn:E.
  - apply np_where_from_nil in E. split; [intros _|reflexivity].
    eapply Forall_impl; [|exact E]. intros x. apply is_active_false.
  - split; [discriminate|]. intro H. exfalso.
    assert (N : np_where_from is_active 0 yd = []).
    { apply np_where_from_nil. eapply Forall_impl; [|exact H].
      intros x. apply is_active_false. }
    congruence.
Qed.

Lemma py_slice_inner {A} (l : list A) (a b : Z) :
  (0 <= a <= b)%Z -> (b <= Z.of_nat (length l))%Z ->
  py_slice l a b = firstn (Z.to_nat (b - a)) (skipn (Z.to_nat a) l) /\
  Z.of_nat (length (py_slice l a b)) = (b - a)%Z.
Proof.
  intros Hab Hb. unfold py_slice, clamp_index.
  assert (Ea : (a <? 0)%Z = false) by (apply Z.ltb_ge; lia).
  assert (Eb : (b <? 0)%Z = false) by (apply Z.ltb_ge; lia).
  rewrite Ea, Eb.
  rewrite (Z.min_l a) by lia. rewrite (Z.min_l b) by lia.
  replace (Z.to_nat b - Z.to_nat a)%nat with (Z.to_nat (b - a)) by lia.
  split; [reflexivity|].
  rewrite length_firstn, length_skipn. lia.
Qed.

(* --------------------------------------------------------------- *)
(** *** Spectral gating and segment extraction *)

Lemma spectral_gating_value y sr level :
  value (spectral_gating y sr level) =
  match gate (mmap np_abs (stft y))
             (map (Qmult level)
                  (noise_power_of (stft (py_slice y 0 (Z.quot sr 2))))) with
  | Ok mags => Ok (istft (mzip polar mags (mmap np_angle (stft y))))
  | Err e => Err e
  end.
Proof.
  unfold spectral_gating, call_stft, call_istft, value, bind, emit, ret, lift.
  simpl. destruct (gate _ _); reflexivity.
Qed.

Lemma spectral_gating_trace y sr level :
  trace (spectral_gating y sr level) =
  CallStft (py_slice y 0 (Z.quot sr 2)) :: CallStft y ::
  match value (spectral_gating y sr level) with
  | Ok _ => [CallIstft]
  | Err _ => []
  end.
Proof.
  unfold spectral_gating, call_stft, call_istft, value, trace, bind, emit,
    ret, lift.
  simpl. destruct (gate _ _); reflexivity.
Qed.

Lemma reduce_noise_value y sr level :
  value (reduce_noise_and_extract_cough y sr level) =
  match value (spectral_gating y sr level) with
  | Ok yd => extract_cough yd sr
  | Err e => Err e
  end.
Proof.
  unfold reduce_noise_and_extract_cough. rewrite value_bind.
  destruct (value (spectral_gating y sr level)); reflexivity.
Qed.

Lemma reduce_noise_trace y sr level :
  trace (reduce_noise_and_extract_cough y sr level) =
  trace (spectral_gating y sr level).
Proof.
  unfold reduce_noise_and_extract_cough. rewrite trace_bind.
  destruct (value (spectral_gating y sr level)); simpl; apply app_nil_r.
Qed.

Lemma predict_audio_trace audio class_names sr n_mels hop_length duration :
  trace (predict_audio audio class_names sr n_mels hop_length duration) =
  CallMelspectrogram audio sr n_mels hop_length ::
  match value (preprocess audio sr n_mels hop_length duration (0, 1)) with
  | Ok _ => [CallModel]
  | Err _ => []
  end.
Proof.
  unfold predict_audio. rewrite trace_bind, preprocess_trace.
  destruct (value (preprocess _ _ _ _ _ _)) as [t|e]; [|reflexivity].
  cbn [app]. f_equal.
  unfold call_model, trace, bind, emit, ret, lift. cbn [fst snd app].
  destruct (torch_argmax _) as [i|]; [|reflexivity].
  destruct (py_index _ _); [|reflexivity].
  destruct (probabilities_of _ _); reflexivity.
Qed.

Lemma main_pipeline_long y sr d :
  get_duration y sr = Ok d -> 1 < d ->
  main_pipeline y sr =
  (cough <- reduce_noise_and_extract_cough y sr (3 # 2) ;;
   predict_audio cough class_names_main 22050 128 512 1).
Proof.
  intros Hd Hlt. unfold main_pipeline. rewrite Hd.
  apply Qltb_lt in Hlt.
  unfold lift at 1. unfold bind at 1. rewrite Hlt.
  destruct (_ <- _ ;; _) as [log r]. reflexivity.
Qed.

Lemma main_pipeline_short y sr d :
  get_duration y sr = Ok d -> d <= 1 ->
  main_pipeline y sr = predict_audio y class_names_main 22050 128 512 1.
Proof.
  intros Hd Hle. unfold main_pipeline. rewrite Hd.
  apply Qltb_nlt in Hle.
  unfold lift at 1. unfold bind at 1. rewrite Hle.
  unfold ret, bind at 1.
  destruct (predict_audio _ _ _ _ _ _) as [log r]. reflexivity.
Qed.

(** C3. Given the denoised waveform [yd] produced by the spectral gating,
    [reduce_noise_and_extract_cough] fails with the "No cough detected"
    [ValueError] exactly when no sample of [yd] exceeds the amplitude
    threshold in absolute value; in the pipeline (signal longer than one
    second) that error is the result, and neither the mel-spectrogram nor
    the network is called. *)
Theorem segmenter_fails_exactly_on_silence y sr level yd :
  value (spectral_gating y sr level) = Ok yd ->
  (value (reduce_noise_and_extract_cough y sr level) = Err no_cough <->
   Forall quiet yd) /\
  (forall d,
      level = 3 # 2 -> get_duration y sr = Ok d -> 1 < d ->
      Forall quiet yd ->
      value (main_pipeline y sr) = Err no_cough /\
      Forall (fun e => is_inference_call e = false)
             (trace (main_pipeline y sr))).
Proof.
  intro Hyd. split.
  - rewrite reduce_noise_value, Hyd. apply extract_cough_fails_iff.
  - intros d -> Hd Hlt Hq.
    assert (Hr : value (reduce_noise_and_extract_cough y sr (3 # 2)) =
                 Err no_cough).
    { rewrite reduce_noise_value, Hyd. now apply extract_cough_fails_iff. }
    rewrite (main_pipeline_long y sr d Hd Hlt). split.
    + now rewrite value_bind, Hr.
    + rewrite trace_bind, Hr, app_nil_r, reduce_noise_trace,
        spectral_gating_trace, Hyd.
      repeat constructor.
Qed.

(** C4. For a sampling rate [sr > 0] and a denoised waveform with a sample
    above the threshold, let [first] be the least index of such a sample.
    The segment returned is [yd[start:stop]] with
    [start = max(0, first - sr // 2)], the pre-roll of half a second counted
    in whole samples, and [stop = min(len(yd), start + sr)]; so
    [0 <= start <= first < stop] and the segment has [stop - start <= sr]
    samples. *)
Theorem segment_bounds y sr level yd :
  (0 < sr)%Z ->
  value (spectral_gating y sr level) = Ok yd ->
  Exists (fun x => amplitude_threshold < Qabs x) yd ->
  exists (first : nat) (x : Q),
    nth_error yd first = Some x /\ amplitude_threshold < Qabs x /\
    Forall quiet (firstn first yd) /\
    let start_idx := start_idx_of (Z.of_nat first) sr in
    let end_idx := end_idx_of (Z.of_nat (length yd)) start_idx sr in
    let segment :=
      firstn (Z.to_nat (end_idx - start_idx)) (skipn (Z.to_nat start_idx) yd) in
    value (reduce_noise_and_extract_cough y sr level) = Ok segment /\
    start_idx = Z.max 0 (Z.of_nat first - sr / 2) /\
    end_idx = Z.min (Z.of_nat (length yd)) (start_idx + sr) /\
    (0 <= start_idx <= Z.of_nat first)%Z /\
    (Z.of_nat first < end_idx)%Z /\
    Z.of_nat (length segment) = (end_idx - start_idx)%Z /\
    (Z.of_nat (length segment) <= sr)%Z.
Proof.
  intros Hsr Hyd Hex.
  assert (Hex' : Exists (fun x => is_active x = true) yd).
  { eapply Exists_impl; [|exact Hex]. intros x. apply is_active_true. }
  destruct (np_where_from_exists is_active 0 yd Hex') as [f [rest Hw]].
  destruct (np_where_from_head _ _ _ _ _ Hw) as [k [x [Hf [Hn [Hp Hq]]]]].
  simpl in Hf. subst f.
  exists k, x. split; [exact Hn|]. split; [now apply is_active_true|].
  split.
  { eapply Forall_impl; [|exact Hq]. intros z. apply is_active_false. }
  assert (Hk : (k < length yd)%nat).
  { apply nth_error_Some. congruence. }
  assert (Hhalf : (0 <= sr / 2 < sr)%Z).
  { split; [apply Z.div_pos; lia | apply Z.div_lt; lia]. }
  cbv zeta.
  set (start_idx := start_idx_of (Z.of_nat k) sr).
  set (end_idx := end_idx_of (Z.of_nat (length yd)) start_idx sr).
  assert (Es : start_idx = Z.max 0 (Z.of_nat k - sr / 2)) by reflexivity.
  assert (Ee : end_idx = Z.min (Z.of_nat (length yd)) (start_idx + sr))
    by reflexivity.
  assert (Hs : (0 <= start_idx <= Z.of_nat k)%Z) by (rewrite Es; lia).
  assert (He : (Z.of_nat k < end_idx)%Z) by (rewrite Ee, Es; lia).
  assert (Hl : (end_idx <= Z.of_nat (length yd))%Z) by (rewrite Ee; lia).
  destruct (py_slice_inner yd start_idx end_idx ltac:(lia) Hl) as [Hsl Hlen].
  split.
  { rewrite reduce_noise_value, Hyd. unfold extract_cough, np_where.
    rewrite Hw. cbv zeta. fold start_idx. fold end_idx. now rewrite <- Hsl. }
  rewrite <- Hsl, Hlen.
  split; [exact Es|]. split; [exact Ee|].
  repeat split; try lia.
Qed.

(** C6. The pipeline calls the STFT / inverse STFT of the noise suppressor
    and segmenter exactly when the duration [len(y) / sr] exceeds one
    second; then it classifies the extracted segment. For a duration of at
    most one second it is [predict_audio] on the raw waveform, whose first
    call is the mel-spectrogram of [y] itself. *)
Theorem denoising_iff_longer_than_one_second y sr d :
  get_duration y sr = Ok d ->
  (existsb is_denoising_call (trace (main_pipeline y sr)) = true <-> 1 < d) /\
  (1 < d ->
   main_pipeline y sr =
   (cough <- reduce_noise_and_extract_cough y sr (3 # 2) ;;
    predict_audio cough class_names_main 22050 128 512 1)) /\
  (d <= 1 ->
   main_pipeline y sr = predict_audio y class_names_main 22050 128 512 1 /\
   exists rest,
     trace (main_pipeline y sr) = CallMelspectrogram y 22050 128 512 :: rest) /\
  d == inject_Z (Z.of_nat (length y)) / inject_Z sr.
Proof.
  intro Hd. split; [|split; [|split]].
  - destruct (Qlt_le_dec 1 d) as [Hlt|Hle].
    + split; [auto|]. intros _.
      rewrite (main_pipeline_long y sr d Hd Hlt), trace_bind,
        reduce_noise_trace, spectral_gating_trace.
      reflexivity.
    + split; [|intro Hlt; exfalso; apply (Qlt_not_le _ _ Hlt Hle)].
      rewrite (main_pipeline_short y sr d Hd Hle), predict_audio_trace.
      destruct (value (preprocess _ _ _ _ _ _)); discriminate.
  - apply main_pipeline_long; assumption.
  - intro Hle. split; [now apply main_pipeline_short with d|].
    rewrite (main_pipeline_short y sr d Hd Hle), predict_audio_trace.
    eauto.
  - unfold get_duration in Hd. destruct (sr =? 0)%Z; [discriminate|].
    injection Hd as <-. reflexivity.
Qed.

(* --------------------------------------------------------------- *)
(** *** Cells of gated spectra *)

Lemma nth_error_combine {A B} (a : list A) (b : list B) (n : nat) :
  nth_error (combine a b) n =
  match nth_error a n, nth_error b n with
  | Some x, Some y => Some (x, y)
  | _, _ => None
  end.
Proof.
  revert b n. induction a as [|x a IH]; intros b n.
  - destruct n; reflexivity.
  - destruct b as [|y b]; destruct n; simpl; try reflexivity.
    + destruct (nth_error a n); reflexivity.
    + apply IH.
Qed.

Lemma cell_mmap {A B} (f : A -> B) (m : matrix A) (i j : nat) :
  cell (mmap f m) i j = option_map f (cell m i j).
Proof.
  unfold cell, mmap. rewrite nth_error_map.
  destruct (nth_error m i) as [row|]; simpl; [|reflexivity].
  apply nth_error_map.
Qed.

Lemma cell_mzip {A B C} (f : A -> B -> C) (a : matrix A) (b : matrix B)
    (i j : nat) (x : A) (y : B) :
  cell a i j = Some x -> cell b i j = Some y ->
  cell (mzip f a b) i j = Some (f x y).
Proof.
  unfold cell, mzip. intros Ha Hb.
  rewrite nth_error_map, nth_error_combine.
  destruct (nth_error a i) as [ra|]; [|discriminate].
  destruct (nth_error b i) as [rb|]; [|discriminate].
  simpl. rewrite nth_error_map, nth_error_combine, Ha, Hb. reflexivity.
Qed.

Lemma cell_sub_column (a d : matrix Q) (col : list Q) (i j : nat) (x c : Q) :
  np_sub_column a col = Ok d ->
  cell a i j = Some x -> nth_error col i = Some c ->
  cell d i j = Some (x - c).
Proof.
  unfold np_sub_column. destruct (Nat.eqb _ _); [|discriminate].
  intro H. injection H as <-. unfold cell. intros Ha Hc.
  rewrite nth_error_map, nth_error_combine, Hc.
  destruct (nth_error a i) as [row|]; [|discriminate].
  simpl. rewrite nth_error_map, Ha. reflexivity.
Qed.

Lemma cell_row_in_range {A} (m : matrix A) (i j : nat) (x : A) :
  cell m i j = Some x -> (i < length m)%nat.
Proof.
  unfold cell. intro H. apply nth_error_Some.
  destruct (nth_error m i); [discriminate | discriminate].
Qed.

(** C5. When the spectra of the noise sample and of the signal have the
    same number of frequency bins and the noise spectrum has at least one
    frame per bin, the gating succeeds and, for every bin [(f, t)] with
    spectrum value [c], the denoised magnitude is
    [max(|c| - level * profile[f], 0)], which is not negative, and the cell
    handed to the inverse STFT combines this magnitude with the phase of
    [c]. *)
Theorem gating_clamps_at_zero y sr level :
  let noise_stft := stft (py_slice y 0 (Z.quot sr 2)) in
  let profile := noise_power_of noise_stft in
  let phase := mmap np_angle (stft y) in
  length noise_stft = length (stft y) ->
  Forall (fun row => row <> []) noise_stft ->
  exists mags,
    gate (mmap np_abs (stft y)) (map (Qmult level) profile) = Ok mags /\
    value (spectral_gating y sr level) = Ok (istft (mzip polar mags phase)) /\
    forall f t c,
      cell (stft y) f t = Some c ->
      exists p m,
        nth_error profile f = Some p /\
        cell mags f t = Some m /\
        m = Qmax (np_abs c - level * p) 0 /\
        0 <= m /\
        cell (mzip polar mags phase) f t = Some (polar m (np_angle c)).
Proof.
  intros noise_stft profile phase Hbins _.
  destruct (np_sub_column (mmap np_abs (stft y)) (map (Qmult level) profile))
    as [d|e] eqn:Hsub.
  2:{ exfalso. unfold np_sub_column in Hsub.
      unfold mmap, profile, noise_power_of in Hsub.
      rewrite !length_map, <- Hbins, Nat.eqb_refl in Hsub. discriminate. }
  assert (Hgate : gate (mmap np_abs (stft y)) (map (Qmult level) profile) =
                  Ok (mmap (fun x => Qmax x 0) d)).
  { unfold gate. now rewrite Hsub. }
  exists (mmap (fun x => Qmax x 0) d). split; [exact Hgate|]. split.
  { rewrite spectral_gating_value. fold noise_stft. fold profile.
    now rewrite Hgate. }
  intros f t c Hc.
  assert (Hf : (f < length profile)%nat).
  { unfold profile, noise_power_of. rewrite length_map, Hbins.
    eapply cell_row_in_range; eauto. }
  destruct (nth_error profile f) as [p|] eqn:Hp.
  2:{ apply nth_error_None in Hp. lia. }
  exists p, (Qmax (np_abs c - level * p) 0).
  assert (Hm : cell (mmap (fun x => Qmax x 0) d) f t =
               Some (Qmax (np_abs c - level * p) 0)).
  { rewrite cell_mmap.
    rewrite (cell_sub_column _ _ _ f t (np_abs c) (level * p) Hsub);
      [reflexivity | |].
    - now rewrite cell_mmap, Hc.
    - now rewrite nth_error_map, Hp. }
  repeat split; auto.
  - apply Q.le_max_r.
  - apply cell_mzip; [exact Hm|]. unfold phase. now rewrite cell_mmap, Hc.
Qed.

(* --------------------------------------------------------------- *)
(** *** Softmax *)

Lemma Qsum_map_pos {A} (f : A -> Q) (l : list A) :
  (forall x, 0 < f x) -> 0 <= Qsum (map f l).
Proof.
  intro Hf. induction l as [|a l IH]; simpl; [apply Qle_refl|].
  specialize (Hf a). lra.
Qed.

Lemma Qsum_map_ge {A} (f : A -> Q) (l : list A) (x : A) :
  (forall x, 0 < f x) -> In x l -> f x <= Qsum (map f l).
Proof.
  intros Hf. induction l as [|a l IH]; simpl; [tauto|].
  intros [->|Hin].
  - pose proof (Qsum_map_pos f l Hf). lra.
  - specialize (IH Hin). specialize (Hf a). lra.
Qed.

Lemma Qsum_map_div {A} (f : A -> Q) (c : Q) (l : list A) :
  Qsum (map (fun x => f x / c) l) == Qsum (map f l) / c.
Proof.
  induction l as [|a l IH]; simpl.
  - unfold Qdiv. ring.
  - rewrite IH. unfold Qdiv. ring.
Qed.

Lemma softmax_total_pos (logits : list Q) :
  logits <> [] -> 0 < Qsum (map exp logits).
Proof.
  destruct logits as [|x l]; [congruence|]. intros _. simpl.
  pose proof (exp_pos x). pose proof (Qsum_map_pos exp l exp_pos). lra.
Qed.

Lemma softmax_length (logits : list Q) :
  length (softmax logits) = length logits.
Proof. unfold softmax. apply length_map. Qed.

Lemma softmax_unit_interval (logits : list Q) (p : Q) :
  In p (softmax logits) -> 0 <= p <= 1.
Proof.
  unfold softmax. intro H. apply in_map_iff in H as [x [<- Hx]].
  assert (Hne : logits <> []) by (intro E; subst; inversion Hx).
  pose proof (softmax_total_pos logits Hne) as Ht.
  pose proof (Qsum_map_ge exp logits x exp_pos Hx) as Hge.
  pose proof (exp_pos x) as Hp.
  split.
  - apply Qle_shift_div_l; [exact Ht | lra].
  - apply Qle_shift_div_r; [exact Ht | lra].
Qed.

Lemma softmax_sums_to_one (logits : list Q) :
  logits <> [] -> Qsum (softmax logits) == 1.
Proof.
  intro Hne. unfold softmax. rewrite Qsum_map_div.
  pose proof (softmax_total_pos logits Hne) as Ht.
  field. lra.
Qed.

(* --------------------------------------------------------------- *)
(** *** Arg-max *)

Lemma argmax_from_spec (l pre : list Q) (bi : nat) (b : Q) :
  nth_error pre bi = Some b ->
  (forall q, In q pre -> q <= b) ->
  (forall j q, (j < bi)%nat -> nth_error pre j = Some q -> q < b) ->
  exists p,
    nth_error (pre ++ l) (argmax_from bi b (length pre) l) = Some p /\
    (forall q, In q (pre ++ l) -> q <= p) /\
    (forall j q, (j < argmax_from bi b (length pre) l)%nat ->
                 nth_error (pre ++ l) j = Some q -> q < p).
Proof.
  revert pre bi b. induction l as [|x xs IH]; intros pre bi b Hb Hmax Hfirst.
  - simpl. rewrite app_nil_r. eauto.
  - assert (Hbi : (bi < length pre)%nat).
    { apply nth_error_Some. congruence. }
    replace (pre ++ x :: xs) with ((pre ++ [x]) ++ xs)
      by (rewrite <- app_assoc; reflexivity).
    simpl. destruct (Qltb b x) eqn:E.
    + apply Qltb_lt in E.
      replace (S (length pre)) with (length (pre ++ [x]))
        by (rewrite length_app; simpl; lia).
      apply IH.
      * rewrite nth_error_app2 by lia. now rewrite Nat.sub_diag.
      * intros q Hq. apply in_app_or in Hq as [Hq|[<-|[]]].
        -- specialize (Hmax q Hq). lra.
        -- apply Qle_refl.
      * intros j q Hj Hq. rewrite nth_error_app1 in Hq by lia.
        assert (Hin : In q pre) by (eapply nth_error_In; eauto).
        specialize (Hmax q Hin). lra.
    + apply Qltb_nlt in E.
      replace (S (length pre)) with (length (pre ++ [x]))
        by (rewrite length_app; simpl; lia).
      apply IH.
      * now rewrite nth_error_app1 by lia.
      * intros q Hq. apply in_app_or in Hq as [Hq|[<-|[]]]; auto.
      * intros j q Hj Hq. rewrite nth_error_app1 in Hq by lia. eauto.
Qed.

Lemma torch_argmax_spec (l : list Q) (i : nat) :
  torch_argmax l = Ok i ->
  exists p,
    nth_error l i = Some p /\
    (forall q, In q l -> q <= p) /\
    (forall j q, (j < i)%nat -> nth_error l j = Some q -> q < p).
Proof.
  destruct l as [|x xs]; [discriminate|]. simpl. intro H. injection H as <-.
  apply (argmax_from_spec xs [x] 0 x).
  - reflexivity.
  - intros q [<-|[]]. apply Qle_refl.
  - intros j q Hj. lia.
Qed.

Lemma torch_argmax_total (l : list Q) :
  l <> [] -> exists i, torch_argmax l = Ok i.
Proof. destruct l; [congruence|]. simpl. eauto. Qed.

(* --------------------------------------------------------------- *)
(** *** The probability dictionary *)

Lemma dict_set_fresh (d : dict) (k : string) (v : Q) :
  ~ In k (dict_keys d) -> dict_set d k v = d ++ [(k, v)].
Proof.
  induction d as [|[k' v'] d IH]; simpl; intro H; [reflexivity|].
  destruct (String.eqb k' k) eqn:E.
  - apply String.eqb_eq in E. exfalso. apply H. now left.
  - rewrite IH; [reflexivity|]. intro Hin. apply H. now right.
Qed.

Lemma dict_get_in (d : dict) (k : string) :
  In k (dict_keys d) -> exists v, dict_get d k = Some v /\ In v (dict_values d).
Proof.
  induction d as [|[k' v'] d IH]; simpl; [tauto|]. intro H.
  destruct (String.eqb k' k) eqn:E.
  - eauto.
  - destruct H as [->|H]; [rewrite String.eqb_refl in E; discriminate|].
    destruct (IH H) as [v [Hg Hin]]. eauto.
Qed.

Lemma firstn_snoc {A} (l : list A) (i : nat) (x : A) :
  nth_error l i = Some x -> firstn (S i) l = firstn i l ++ [x].
Proof.
  revert i. induction l as [|a l IH]; intros [|i] H; simpl in *;
    try discriminate.
  - now injection H as ->.
  - now rewrite (IH i H).
Qed.

Lemma combine_snoc {A B} (a : list A) (b : list B) (x : A) (y : B) :
  length a = length b ->
  combine (a ++ [x]) (b ++ [y]) = combine a b ++ [(x, y)].
Proof.
  revert b. induction a as [|a0 a IH]; intros [|b0 b] H; simpl in *;
    try discriminate; [reflexivity|].
  now rewrite IH by lia.
Qed.

Lemma keys_combine (a : list string) (b : list Q) :
  length a = length b -> dict_keys (combine a b) = a.
Proof.
  revert b. induction a as [|a0 a IH]; intros [|b0 b] H; simpl in *;
    try discriminate; [reflexivity|].
  f_equal. apply IH. lia.
Qed.

Lemma values_combine (a : list string) (b : list Q) :
  length a = length b -> dict_values (combine a b) = b.
Proof.
  revert b. induction a as [|a0 a IH]; intros [|b0 b] H; simpl in *;
    try discriminate; [reflexivity|].
  f_equal. apply IH. lia.
Qed.

Lemma NoDup_not_in_prefix (l : list string) (i : nat) (k : string) :
  NoDup l -> nth_error l i = Some k -> ~ In k (firstn i l).
Proof.
  intros Hnd Hk Hin. apply In_nth_error in Hin as [j Hj].
  assert (Hjl : (j < length (firstn i l))%nat).
  { apply nth_error_Some. congruence. }
  rewrite length_firstn in Hjl.
  rewrite nth_error_firstn in Hj.
  destruct (Nat.ltb j i) eqn:E; [|discriminate].
  apply Nat.ltb_lt in E.
  assert (j = i); [|lia].
  apply (proj1 (NoDup_nth_error l) Hnd); [lia | congruence].
Qed.

(** The loop never fails while the indices stay inside both lists. *)
Lemma probabilities_loop_total names probs (n i : nat) (acc : dict) :
  (i + n <= length names)%nat -> (i + n <= length probs)%nat ->
  exists d, probabilities_loop names probs (seq i n) acc = Ok d.
Proof.
  revert i acc. induction n as [|n IH]; intros i acc Hn Hp; simpl; [eauto|].
  unfold py_index.
  destruct (nth_error names i) as [k|] eqn:Ek.
  2:{ apply nth_error_None in Ek. lia. }
  destruct (nth_error probs i) as [p|] eqn:Ep.
  2:{ apply nth_error_None in Ep. lia. }
  apply IH; lia.
Qed.

(** With distinct names every write adds a new key. *)
Lemma probabilities_loop_distinct names probs (n i : nat) :
  NoDup names ->
  (i + n <= length names)%nat -> (i + n <= length probs)%nat ->
  probabilities_loop names probs (seq i n)
    (combine (firstn i names) (firstn i probs)) =
  Ok (combine (firstn (i + n) names) (firstn (i + n) probs)).
Proof.
  intro Hnd. revert i. induction n as [|n IH]; intros i Hn Hp; simpl.
  - now rewrite Nat.add_0_r.
  - unfold py_index.
    destruct (nth_error names i) as [k|] eqn:Ek.
    2:{ apply nth_error_None in Ek. lia. }
    destruct (nth_error probs i) as [p|] eqn:Ep.
    2:{ apply nth_error_None in Ep. lia. }
    rewrite dict_set_fresh.
    + rewrite <- combine_snoc by (rewrite !length_firstn; lia).
      rewrite <- (firstn_snoc names i k Ek), <- (firstn_snoc probs i p Ep).
      rewrite IH by lia. now rewrite Nat.add_succ_r.
    + rewrite keys_combine by (rewrite !length_firstn; lia).
      now apply NoDup_not_in_prefix.
Qed.

Lemma probabilities_of_distinct names probs :
  NoDup names -> length probs = length names ->
  probabilities_of names probs = Ok (combine names probs).
Proof.
  intros Hnd Hlen. unfold probabilities_of.
  pose proof (probabilities_loop_distinct names probs (length names) 0 Hnd)
    as H.
  simpl in H. rewrite H by lia.
  rewrite <- Hlen at 2. now rewrite !firstn_all.
Qed.

Lemma predict_audio_value audio class_names sr n_mels hop_length duration t :
  value (preprocess audio sr n_mels hop_length duration (0, 1)) = Ok t ->
  value (predict_audio audio class_names sr n_mels hop_length duration) =
  match torch_argmax (softmax (model t)) with
  | Ok idx =>
      match py_index class_names idx with
      | Ok name =>
          match probabilities_of class_names (softmax (model t)) with
          | Ok d => Ok (name, d)
          | Err e => Err e
          end
      | Err e => Err e
      end
  | Err e => Err e
  end.
Proof.
  intro Ht. unfold predict_audio. rewrite value_bind, Ht.
  unfold call_model, value, bind, emit, ret, lift. cbn [fst snd app].
  destruct (torch_argmax _) as [i|]; [|reflexivity].
  destruct (py_index _ _); [|reflexivity].
  destruct (probabilities_of _ _); reflexivity.
Qed.

(** From the logits of the network on a finite tensor to the dictionary:
    one logit per class name, distinct class names. *)
Lemma predict_audio_distribution
    audio class_names sr n_mels hop_length duration t :
  value (preprocess audio sr n_mels hop_length duration (0, 1)) = Ok t ->
  tensor_finite t ->
  length (model t) = length class_names ->
  class_names <> [] ->
  NoDup class_names ->
  exists name probabilities,
    value (predict_audio audio class_names sr n_mels hop_length duration) =
      Ok (name, probabilities) /\
    dict_keys probabilities = class_names /\
    dict_values probabilities = softmax (model t) /\
    (forall c, In c class_names ->
       exists p, dict_get probabilities c = Some p /\ 0 <= p <= 1) /\
    Qabs (Qsum (dict_values probabilities) - 1) <= 1 # 10000.
Proof.
  intros Ht _ Hlen Hne Hnd.
  set (probs := softmax (model t)).
  assert (Hpl : length probs = length class_names).
  { unfold probs. now rewrite softmax_length. }
  assert (Hlogits : model t <> []).
  { intro E. rewrite E in Hlen. destruct class_names; [congruence|].
    discriminate. }
  assert (Hprobs : probs <> []).
  { intro E. rewrite E in Hpl. destruct class_names; [congruence|].
    discriminate. }
  destruct (torch_argmax_total probs Hprobs) as [idx Hidx].
  destruct (torch_argmax_spec probs idx Hidx) as [p [Hp _]].
  assert (Hi : (idx < length class_names)%nat).
  { rewrite <- Hpl. apply nth_error_Some. congruence. }
  destruct (nth_error class_names idx) as [name|] eqn:Hname.
  2:{ apply nth_error_None in Hname. lia. }
  exists name, (combine class_names probs).
  assert (Hk : dict_keys (combine class_names probs) = class_names)
    by (apply keys_combine; lia).
  assert (Hv : dict_values (combine class_names probs) = probs)
    by (apply values_combine; lia).
  split; [|split; [|split; [|split]]].
  - rewrite (predict_audio_value _ _ _ _ _ _ t Ht). fold probs.
    rewrite Hidx. unfold py_index. rewrite Hname.
    now rewrite (probabilities_of_distinct class_names probs Hnd Hpl).
  - exact Hk.
  - exact Hv.
  - intros c Hc. rewrite <- Hk in Hc.
    destruct (dict_get_in _ _ Hc) as [v [Hg Hin]].
    exists v. split; [exact Hg|]. rewrite Hv in Hin.
    now apply softmax_unit_interval with (model t).
  - rewrite Hv. unfold probs.
    rewrite (softmax_sums_to_one (model t) Hlogits).
    apply Qabs_Qle_condition. split; lra.
Qed.

Lemma spread_tensor_finite (db : matrix Q) (f : Q -> Q) :
  tensor_finite [[mmap (fun x => Fin (f x)) db]].
Proof.
  unfold tensor_finite. repeat constructor.
  apply Forall_forall. intros row Hrow.
  apply Forall_forall. intros c Hc.
  destruct (in_mmap _ _ _ _ Hrow Hc) as [row0 [x [_ [_ ->]]]].
  now exists (f x).
Qed.

Lemma nan_tensor_not_finite (db : matrix Q) (lo : Q) :
  np_min db = Ok lo -> ~ tensor_finite [[mmap (fun _ => NaN) db]].
Proof.
  intros Hmin Hfin.
  destruct (np_min_spec _ _ Hmin) as [_ [row [x [Hrow [Hx _]]]]].
  unfold tensor_finite in Hfin.
  inversion Hfin as [|? ? H1 _]; subst.
  inversion H1 as [|? ? H2 _]; subst.
  rewrite Forall_forall in H2.
  assert (Hin : In (map (fun _ : Q => NaN) row) (mmap (fun _ : Q => NaN) db)).
  { unfold mmap. apply in_map_iff. eauto. }
  specialize (H2 _ Hin). rewrite Forall_forall in H2.
  assert (Hc : In NaN (map (fun _ : Q => NaN) row)).
  { apply in_map_iff. eauto. }
  destruct (H2 _ Hc) as [q Hq]. discriminate.
Qed.

(** C7 (the code meets the claim only on inputs that are not degenerate).
    Whatever the decibel spectrogram, [predict_audio] computes a tensor and
    calls the network on it, without a check. When the spectrogram is not
    constant the tensor is finite and, with one logit per class name and
    distinct, non-empty class names, the dictionary has exactly the class
    names as keys, the softmax probabilities as values, each in [[0, 1]],
    summing to 1 (within 1e-4). When the spectrogram is constant the tensor
    handed to the network is NaN in every cell, not a finite tensor: the
    guarantee does not extend to it. *)
Theorem probabilities_form_distribution
    audio class_names sr n_mels hop_length duration lo hi :
  let db := power_to_db (melspectrogram audio sr n_mels hop_length) in
  np_min db = Ok lo -> np_max db = Ok hi ->
  exists t,
    value (preprocess audio sr n_mels hop_length duration (0, 1)) = Ok t /\
    trace (predict_audio audio class_names sr n_mels hop_length duration) =
      [CallMelspectrogram audio sr n_mels hop_length; CallModel] /\
    (lo < hi ->
     tensor_finite t /\
     (length (model t) = length class_names ->
      class_names <> [] ->
      NoDup class_names ->
      exists name probabilities,
        value (predict_audio audio class_names sr n_mels hop_length duration)
          = Ok (name, probabilities) /\
        dict_keys probabilities = class_names /\
        dict_values probabilities = softmax (model t) /\
        (forall c, In c class_names ->
           exists p, dict_get probabilities c = Some p /\ 0 <= p <= 1) /\
        Qabs (Qsum (dict_values probabilities) - 1) <= 1 # 10000)) /\
    (lo == hi ->
     t = [[mmap (fun _ => NaN) db]] /\ ~ tensor_finite t).
Proof.
  intros db Hmin Hmax.
  destruct (Qlt_le_dec lo hi) as [Hlt|Hge].
  - set (f := fun x => (x - lo) / (hi - lo) * (1 - 0) + 0).
    exists [[mmap (fun x => Fin (f x)) db]].
    assert (Ht : value (preprocess audio sr n_mels hop_length duration (0, 1))
                 = Ok [[mmap (fun x => Fin (f x)) db]]).
    { rewrite preprocess_value. fold db.
      now rewrite (normalize_spread db lo hi 0 1 Hmin Hmax Hlt). }
    split; [exact Ht|]. split; [now rewrite predict_audio_trace, Ht|]. split.
    + intros _. split; [apply spread_tensor_finite|].
      intros Hlen Hne Hnd.
      apply predict_audio_distribution; auto using spread_tensor_finite.
    + intro Heq. exfalso. lra.
  - assert (Heq : lo == hi).
    { destruct (np_min_spec _ _ Hmin) as [Hle [row [x [Hrow [Hx _]]]]].
      destruct (np_max_spec _ _ Hmax) as [Hgt _].
      specialize (Hle row x Hrow Hx). specialize (Hgt row x Hrow Hx). lra. }
    exists [[mmap (fun _ => NaN) db]].
    assert (Ht : value (preprocess audio sr n_mels hop_length duration (0, 1))
                 = Ok [[mmap (fun _ => NaN) db]]).
    { rewrite preprocess_value. fold db.
      now rewrite (normalize_constant db lo hi 0 1 Hmin Hmax Heq). }
    split; [exact Ht|]. split; [now rewrite predict_audio_trace, Ht|]. split.
    + intro Hlt. exfalso. lra.
    + intros _. split; [reflexivity|].
      now apply nan_tensor_not_finite with lo.
Qed.

(** C8. Under the same conditions on the network and the class names, the
    class returned by [predict_audio] is the name at an index [idx] of the
    probability vector whose value is the maximum and strictly greater than
    every value before it: the lowest index attaining the maximum. *)
Theorem predicted_class_is_first_argmax
    audio class_names sr n_mels hop_length duration t :
  value (preprocess audio sr n_mels hop_length duration (0, 1)) = Ok t ->
  length (model t) = length class_names ->
  class_names <> [] ->
  exists idx name probabilities p,
    value (predict_audio audio class_names sr n_mels hop_length duration) =
      Ok (name, probabilities) /\
    nth_error class_names idx = Some name /\
    nth_error (softmax (model t)) idx = Some p /\
    (forall q, In q (softmax (model t)) -> q <= p) /\
    (forall j q, (j < idx)%nat ->
                 nth_error (softmax (model t)) j = Some q -> q < p).
Proof.
  intros Ht Hlen Hne.
  set (probs := softmax (model t)).
  assert (Hpl : length probs = length class_names).
  { unfold probs. now rewrite softmax_length. }
  assert (Hprobs : probs <> []).
  { intro E. rewrite E in Hpl. destruct class_names; [congruence|].
    discriminate. }
  destruct (torch_argmax_total probs Hprobs) as [idx Hidx].
  destruct (torch_argmax_spec probs idx Hidx) as [p [Hp [Hmax Hfirst]]].
  assert (Hi : (idx < length class_names)%nat).
  { rewrite <- Hpl. apply nth_error_Some. congruence. }
  destruct (nth_error class_names idx) as [name|] eqn:Hname.
  2:{ apply nth_error_None in Hname. lia. }
  destruct (probabilities_loop_total class_names probs
              (length class_names) 0 []) as [d Hd]; [lia | lia |].
  exists idx, name, d, p.
  split; [|repeat split; auto].
  rewrite (predict_audio_value _ _ _ _ _ _ t Ht). fold probs.
  rewrite Hidx. unfold py_index. rewrite Hname.
  unfold probabilities_of. now rewrite Hd.
Qed.

(* --------------------------------------------------------------- *)
(** *** More on the extracted segment *)

Lemma extract_cough_ok_inv (yd seg : signal) (sr : Z) :
  extract_cough yd sr = Ok seg ->
  exists (first : nat) (x : Q),
    nth_error yd first = Some x /\ is_active x = true /\
    Forall (fun z => is_active z = false) (firstn first yd) /\
    seg = py_slice yd (start_idx_of (Z.of_nat first) sr)
            (end_idx_of (Z.of_nat (length yd))
               (start_idx_of (Z.of_nat first) sr) sr).
Proof.
  unfold extract_cough, np_where.
  destruct (np_where_from is_active 0 yd) as [|f rest] eqn:Hw; [discriminate|].
  intro H. injection H as <-.
  destruct (np_where_from_head _ _ _ _ _ Hw) as [k [x [Hf [Hn [Hp Hq]]]]].
  simpl in Hf. subst f. exists k, x. auto.
Qed.

Lemma Forall_skipn {A} (P : A -> Prop) (n : nat) (l : list A) :
  Forall P l -> Forall P (skipn n l).
Proof.
  intro H. rewrite <- (firstn_skipn n l) in H.
  apply Forall_app in H. apply H.
Qed.

(** Shared arithmetic of the two indices. *)
Lemma segment_indices (first : nat) (len sr : Z) :
  (0 < sr)%Z -> (Z.of_nat first < len)%Z ->
  let s := start_idx_of (Z.of_nat first) sr in
  let e := end_idx_of len s sr in
  (0 <= s <= Z.of_nat first)%Z /\ (Z.of_nat first < e <= len)%Z /\
  (Z.of_nat first - s = Z.min (Z.of_nat first) (sr / 2))%Z /\
  (e - s <= sr)%Z.
Proof.
  intros Hsr Hlen.
  assert (Hhalf : (0 <= sr / 2 < sr)%Z).
  { split; [apply Z.div_pos; lia | apply Z.div_lt; lia]. }
  unfold start_idx_of, end_idx_of. cbv zeta. lia.
Qed.

(** X10. The first active sample sits in the returned segment at offset
    [min(first, sr // 2)], and every sample of the segment before it is
    quiet: with at least half a second of lead the cough is exactly
    [sr // 2] samples into the segment. *)
Theorem cough_offset_in_segment (yd seg : signal) (sr : Z) :
  (0 < sr)%Z ->
  extract_cough yd sr = Ok seg ->
  exists (first : nat) (x : Q),
    nth_error yd first = Some x /\ amplitude_threshold < Qabs x /\
    Forall quiet (firstn first yd) /\
    let offset := Nat.min first (Z.to_nat (sr / 2)) in
    nth_error seg offset = Some x /\
    Forall quiet (firstn offset seg).
Proof.
  intros Hsr Hseg.
  destruct (extract_cough_ok_inv _ _ _ Hseg) as [k [x [Hn [Hp [Hq ->]]]]].
  assert (Hk : (k < length yd)%nat) by (apply nth_error_Some; congruence).
  assert (Hquiet : Forall quiet (firstn k yd)).
  { eapply Forall_impl; [|exact Hq]. intros z. apply is_active_false. }
  exists k, x. split; [exact Hn|]. split; [now apply is_active_true|].
  split; [exact Hquiet|].
  destruct (segment_indices k (Z.of_nat (length yd)) sr Hsr ltac:(lia))
    as [Hs [He [Hoff Hlen]]].
  set (s := start_idx_of (Z.of_nat k) sr) in *.
  set (e := end_idx_of (Z.of_nat (length yd)) s sr) in *.
  destruct (py_slice_inner yd s e ltac:(lia) ltac:(lia)) as [-> _].
  assert (Hh : (0 <= sr / 2)%Z) by (apply Z.div_pos; lia).
  assert (Eoff : Nat.min k (Z.to_nat (sr / 2)) = (k - Z.to_nat s)%nat) by lia.
  cbv zeta. rewrite Eoff. split.
  - rewrite nth_error_firstn.
    assert (L : (k - Z.to_nat s <? Z.to_nat (e - s))%nat = true)
      by (apply Nat.ltb_lt; lia).
    rewrite L, nth_error_skipn.
    replace (Z.to_nat s + (k - Z.to_nat s))%nat with k by lia. exact Hn.
  - rewrite firstn_firstn.
    replace (Nat.min (k - Z.to_nat s) (Z.to_nat (e - s)))
      with (k - Z.to_nat s)%nat by lia.
    rewrite firstn_skipn_comm.
    replace (Z.to_nat s + (k - Z.to_nat s))%nat with k by lia.
    now apply Forall_skipn.
Qed.

(** X11. The segment is a full [sr] samples whenever the signal reaches
    [start + sr]; otherwise it is cut at the end of the signal: it is then
    the whole tail of the signal from [start] and has fewer than [sr]
    samples. It is never empty. *)
Theorem segment_full_or_tail (yd seg : signal) (sr : Z) :
  (0 < sr)%Z ->
  extract_cough yd sr = Ok seg ->
  exists start : Z,
    (0 <= start < Z.of_nat (length yd))%Z /\
    seg <> [] /\
    ((start + sr <= Z.of_nat (length yd))%Z ->
     Z.of_nat (length seg) = sr /\
     seg = firstn (Z.to_nat sr) (skipn (Z.to_nat start) yd)) /\
    ((Z.of_nat (length yd) < start + sr)%Z ->
     (Z.of_nat (length seg) < sr)%Z /\ seg = skipn (Z.to_nat start) yd).
Proof.
  intros Hsr Hseg.
  destruct (extract_cough_ok_inv _ _ _ Hseg) as [k [x [Hn [Hp [Hq ->]]]]].
  assert (Hk : (k < length yd)%nat) by (apply nth_error_Some; congruence).
  destruct (segment_indices k (Z.of_nat (length yd)) sr Hsr ltac:(lia))
    as [Hs [He [Hoff Hlen]]].
  set (s := start_idx_of (Z.of_nat k) sr) in *.
  assert (Ee : end_idx_of (Z.of_nat (length yd)) s sr =
               Z.min (Z.of_nat (length yd)) (s + sr)) by reflexivity.
  set (e := end_idx_of (Z.of_nat (length yd)) s sr) in *.
  destruct (py_slice_inner yd s e ltac:(lia) ltac:(lia)) as [Hsl Hl].
  exists s. split; [lia|]. split; [|split].
  - intro E. rewrite E in Hl. simpl in Hl. lia.
  - intro Hfull. split; [lia|]. rewrite Hsl. f_equal. lia.
  - intro Hcut. split; [lia|]. rewrite Hsl.
    apply firstn_all2. rewrite length_skipn. lia.
Qed.

Lemma is_active_opp (x : Q) : is_active (- x) = is_active x.
Proof.
  destruct (is_active x) eqn:E.
  - apply is_active_true. apply is_active_true in E. now rewrite Qabs_opp.
  - apply is_active_false. apply is_active_false in E.
    unfold quiet in *. now rewrite Qabs_opp.
Qed.

Lemma np_where_from_map (p : Q -> bool) (f : Q -> Q) (i : Z) (a : list Q) :
  (forall x, p (f x) = p x) ->
  np_where_from p i (map f a) = np_where_from p i a.
Proof.
  intro H. revert i. induction a as [|x xs IH]; intro i; simpl; [reflexivity|].
  rewrite H, !IH. reflexivity.
Qed.

Lemma py_slice_map {A B} (f : A -> B) (l : list A) (a b : Z) :
  py_slice (map f l) a b = map f (py_slice l a b).
Proof.
  unfold py_slice, clamp_index. rewrite length_map.
  now rewrite skipn_map, firstn_map.
Qed.

(** X12. Detection looks at absolute values only: flipping the polarity of
    the denoised waveform flips the polarity of the segment and nothing else
    (same indices, same failure). *)
Theorem extract_cough_polarity (yd : signal) (sr : Z) :
  extract_cough (map Qopp yd) sr =
  match extract_cough yd sr with
  | Ok seg => Ok (map Qopp seg)
  | Err e => Err e
  end.
Proof.
  unfold extract_cough, np_where.
  rewrite (np_where_from_map is_active Qopp 0 yd is_active_opp).
  destruct (np_where_from is_active 0 yd) as [|first rest]; [reflexivity|].
  cbv zeta. rewrite length_map. now rewrite py_slice_map.
Qed.

Lemma np_where_from_app (p : Q -> bool) (i : Z) (a b : list Q) :
  np_where_from p i (a ++ b) =
  np_where_from p i a ++ np_where_from p (i + Z.of_nat (length a)) b.
Proof.
  revert i. induction a as [|x xs IH]; intro i; simpl.
  - now rewrite Z.add_0_r.
  - rewrite IH.
    replace (i + 1 + Z.of_nat (length xs))%Z
      with (i + Z.pos (Pos.of_succ_nat (length xs)))%Z by lia.
    destruct (p x); reflexivity.
Qed.

(** X13. Only the first cough counts: once a full segment of [sr] samples has
    been extracted, whatever audio follows the signal does not change the
    result. *)
Theorem extract_cough_ignores_later_audio (yd seg tail : signal) (sr : Z) :
  (0 < sr)%Z ->
  extract_cough yd sr = Ok seg ->
  Z.of_nat (length seg) = sr ->
  extract_cough (yd ++ tail) sr = Ok seg.
Proof.
  intros Hsr Hseg Hfull.
  destruct (extract_cough_ok_inv _ _ _ Hseg) as [k [x [Hn [Hp [Hq Eseg]]]]].
  assert (Hk : (k < length yd)%nat) by (apply nth_error_Some; congruence).
  destruct (segment_indices k (Z.of_nat (length yd)) sr Hsr ltac:(lia))
    as [Hs [He [Hoff Hlen]]].
  unfold extract_cough, np_where in Hseg |- *.
  rewrite np_where_from_app.
  destruct (np_where_from is_active 0 yd) as [|f rest] eqn:Hw; [discriminate|].
  destruct (np_where_from_head _ _ _ _ _ Hw) as [k' [x' [Hf [Hn' [Hp' Hq']]]]].
  simpl in Hf. subst f.
  assert (k' = k).
  { destruct (Nat.lt_trichotomy k' k) as [L|[E|G]]; [|exact E|]; exfalso.
    - rewrite Forall_forall in Hq.
      assert (Hin : In x' (firstn k yd)).
      { apply nth_error_In with k'. rewrite nth_error_firstn.
        apply Nat.ltb_lt in L. now rewrite L. }
      specialize (Hq x' Hin). congruence.
    - rewrite Forall_forall in Hq'.
      assert (Hin : In x (firstn k' yd)).
      { apply nth_error_In with k. rewrite nth_error_firstn.
        apply Nat.ltb_lt in G. now rewrite G. }
      specialize (Hq' x Hin). congruence. }
  subst k'. simpl app. cbv zeta in Hseg |- *.
  injection Hseg as Hseg.
  set (s := start_idx_of (Z.of_nat k) sr) in *.
  unfold end_idx_of in *.
  destruct (py_slice_inner yd s (Z.min (Z.of_nat (length yd)) (s + sr))
              ltac:(lia) ltac:(lia)) as [Hsl Hl].
  rewrite Hseg in Hl.
  assert (Hreach : (s + sr <= Z.of_nat (length yd))%Z) by lia.
  rewrite length_app, Nat2Z.inj_add.
  rewrite (Z.min_r (Z.of_nat (length yd))) in Hsl by lia.
  rewrite (Z.min_r (Z.of_nat (length yd) + Z.of_nat (length tail))) by lia.
  destruct (py_slice_inner (yd ++ tail) s (s + sr)
              ltac:(lia) ltac:(rewrite length_app; lia)) as [Hsl' _].
  rewrite (Z.min_r (Z.of_nat (length yd))) in Hseg by lia.
  fold s. rewrite Hsl', <- Hseg, Hsl. f_equal.
  rewrite skipn_app, firstn_app, length_skipn.
  replace (Z.to_nat (s + sr - s) - (length yd - Z.to_nat s))%nat with 0%nat
    by lia.
  simpl. now rewrite app_nil_r.
Qed.

(* --------------------------------------------------------------- *)
(** *** More on spectral gating *)

Lemma Qsum_nonneg (l : list Q) : Forall (fun x => 0 <= x) l -> 0 <= Qsum l.
Proof.
  induction 1 as [|x l Hx _ IH]; simpl; [apply Qle_refl | lra].
Qed.

Lemma np_mean_nonneg (l : list Q) :
  Forall (fun x => 0 <= x) l -> 0 <= np_mean l.
Proof.
  intro H. unfold np_mean, Qdiv. apply Qmult_le_0_compat.
  - now apply Qsum_nonneg.
  - apply Qinv_le_0_compat.
    rewrite <- (Zle_Qle 0). lia.
Qed.

Lemma noise_power_nonneg (s : matrix complex) (p : Q) :
  In p (noise_power_of s) -> 0 <= p.
Proof.
  unfold noise_power_of. intro H. apply in_map_iff in H as [row [<- _]].
  apply np_mean_nonneg. apply Forall_map. apply Forall_forall.
  intros c _. apply Qpower.Qsqr_nonneg.
Qed.

Lemma gate_total (magnitude : matrix Q) (th : list Q) :
  length th = length magnitude -> exists g, gate magnitude th = Ok g.
Proof.
  intro H. unfold gate, np_sub_column.
  rewrite H, Nat.eqb_refl. eauto.
Qed.

Lemma gate_cell (magnitude g : matrix Q) (th : list Q) (f t : nat) (a q : Q) :
  gate magnitude th = Ok g ->
  cell magnitude f t = Some a -> nth_error th f = Some q ->
  cell g f t = Some (Qmax (a - q) 0).
Proof.
  unfold gate.
  destruct (np_sub_column magnitude th) as [d|] eqn:Hsub; [|discriminate].
  intro H. injection H as <-. intros Ha Hq.
  rewrite cell_mmap.
  now rewrite (cell_sub_column _ _ _ f t a q Hsub Ha Hq).
Qed.

Lemma gate_shape (magnitude g : matrix Q) (th : list Q) (r c : nat) :
  gate magnitude th = Ok g -> is_matrix magnitude r c -> is_matrix g r c.
Proof.
  unfold gate, np_sub_column.
  destruct (Nat.eqb (length magnitude) (length th)) eqn:E; [|discriminate].
  apply Nat.eqb_eq in E.
  intro H. injection H as <-. intros [Hr Hc].
  apply is_matrix_mmap. split.
  - rewrite length_map, length_combine. lia.
  - apply Forall_map. apply Forall_forall. intros [row q] Hin.
    rewrite length_map. apply in_combine_l in Hin.
    rewrite Forall_forall in Hc. now apply Hc.
Qed.

Lemma is_matrix_mzip {A B C} (f : A -> B -> C) (a : matrix A) (b : matrix B)
    (r c : nat) :
  is_matrix a r c -> is_matrix b r c -> is_matrix (mzip f a b) r c.
Proof.
  intros [Har Hac] [Hbr Hbc]. unfold mzip. split.
  - rewrite length_map, length_combine. lia.
  - apply Forall_map. apply Forall_forall. intros [ra rb] Hin.
    rewrite length_map, length_combine.
    rewrite Forall_forall in Hac, Hbc.
    rewrite (Hac ra (in_combine_l _ _ _ _ Hin)).
    rewrite (Hbc rb (in_combine_r _ _ _ _ Hin)). lia.
Qed.

(** X8. With a level [>= 0] (and magnitudes [>= 0], as [np.abs] returns
    them) the gate never amplifies: every denoised magnitude lies between 0
    and the original one, it is 0 exactly for the bins at or below
    [level * profile[f]], and the other bins lose exactly that amount. *)
Theorem gating_never_amplifies y sr level :
  let noise_stft := stft (py_slice y 0 (Z.quot sr 2)) in
  let profile := noise_power_of noise_stft in
  length noise_stft = length (stft y) ->
  Forall (fun row => row <> []) noise_stft ->
  (forall c, 0 <= np_abs c) ->
  0 <= level ->
  exists mags,
    gate (mmap np_abs (stft y)) (map (Qmult level) profile) = Ok mags /\
    forall f t c,
      cell (stft y) f t = Some c ->
      exists p m,
        nth_error profile f = Some p /\ 0 <= p /\
        cell mags f t = Some m /\
        0 <= m <= np_abs c /\
        (m == 0 <-> np_abs c <= level * p) /\
        (level * p < np_abs c -> m == np_abs c - level * p).
Proof.
  intros noise_stft profile Hbins _ Habs Hlevel.
  destruct (gate_total (mmap np_abs (stft y)) (map (Qmult level) profile))
    as [g Hg].
  { unfold mmap, profile, noise_power_of. now rewrite !length_map. }
  exists g. split; [exact Hg|]. intros f t c Hc.
  assert (Hf : (f < length profile)%nat).
  { unfold profile, noise_power_of. rewrite length_map, Hbins.
    eapply cell_row_in_range; eauto. }
  destruct (nth_error profile f) as [p|] eqn:Hp.
  2:{ apply nth_error_None in Hp. lia. }
  assert (Hp0 : 0 <= p).
  { apply (noise_power_nonneg noise_stft). eapply nth_error_In; eauto. }
  exists p, (Qmax (np_abs c - level * p) 0).
  assert (Hlp : 0 <= level * p) by (apply Qmult_le_0_compat; assumption).
  specialize (Habs c).
  split; [reflexivity|]. split; [exact Hp0|]. split.
  { apply (gate_cell _ _ _ f t (np_abs c) (level * p) Hg).
    - now rewrite cell_mmap, Hc.
    - now rewrite nth_error_map, Hp. }
  destruct (Qlt_le_dec (level * p) (np_abs c)) as [Hgt|Hle].
  - assert (E : Qmax (np_abs c - level * p) 0 == np_abs c - level * p)
      by (apply Q.max_l; lra).
    rewrite E. repeat split; intros; lra.
  - assert (E : Qmax (np_abs c - level * p) 0 == 0)
      by (apply Q.max_r; lra).
    rewrite E. repeat split; intros; lra.
Qed.

(** X9. When the noise sample's spectrum has as many frequency bins as the
    signal's, the spectrum handed to the inverse STFT has the shape of
    [stft(y)], and the denoiser makes exactly three librosa calls: the STFT
    of the noise sample, the STFT of the signal, the inverse STFT. *)
Theorem gating_preserves_shape y sr level bins frames :
  is_matrix (stft y) bins frames ->
  length (stft (py_slice y 0 (Z.quot sr 2))) = bins ->
  exists stft_denoised,
    value (spectral_gating y sr level) = Ok (istft stft_denoised) /\
    is_matrix stft_denoised bins frames /\
    trace (spectral_gating y sr level) =
      [CallStft (py_slice y 0 (Z.quot sr 2)); CallStft y; CallIstft].
Proof.
  intros Hs Hn.
  destruct (gate_total (mmap np_abs (stft y))
              (map (Qmult level)
                 (noise_power_of (stft (py_slice y 0 (Z.quot sr 2))))))
    as [g Hg].
  { unfold mmap, noise_power_of. rewrite !length_map, Hn. symmetry. apply Hs. }
  exists (mzip polar g (mmap np_angle (stft y))).
  assert (Hv : value (spectral_gating y sr level) =
               Ok (istft (mzip polar g (mmap np_angle (stft y))))).
  { now rewrite spectral_gating_value, Hg. }
  split; [exact Hv|]. split.
  - apply is_matrix_mzip.
    + apply (gate_shape _ _ _ _ _ Hg). now apply is_matrix_mmap.
    + now apply is_matrix_mmap.
  - now rewrite spectral_gating_trace, Hv.
Qed.

Lemma py_slice_prefix {A} (l : list A) (k : Z) :
  (0 <= k)%Z -> py_slice l 0 k = firstn (Z.to_nat k) l.
Proof.
  intro Hk. unfold py_slice, clamp_index.
  assert (E : (k <? 0)%Z = false) by (apply Z.ltb_ge; lia).
  rewrite E. cbn [Z.ltb Z.compare].
  rewrite (Z.min_l 0) by lia. cbn [Z.to_nat skipn].
  rewrite Nat.sub_0_r.
  destruct (Z_le_gt_dec k (Z.of_nat (length l))) as [L|G].
  - now rewrite Z.min_l by lia.
  - rewrite Z.min_r by lia. rewrite Nat2Z.id.
    rewrite firstn_all. symmetry. apply firstn_all2. lia.
Qed.

(** X7. For [sr >= 0] the noise reference handed to the first STFT is the
    leading [sr // 2] samples of the signal, and the whole signal when it has
    no more than that. *)
Theorem noise_sample_is_leading_half_second y sr level :
  (0 <= sr)%Z ->
  exists rest,
    trace (spectral_gating y sr level) =
      CallStft (firstn (Z.to_nat (sr / 2)) y) :: CallStft y :: rest /\
    length (firstn (Z.to_nat (sr / 2)) y) =
      Nat.min (Z.to_nat (sr / 2)) (length y) /\
    ((Z.of_nat (length y) <= sr / 2)%Z ->
     firstn (Z.to_nat (sr / 2)) y = y).
Proof.
  intro Hsr.
  assert (Hq : Z.quot sr 2 = (sr / 2)%Z) by (apply Z.quot_div_nonneg; lia).
  assert (Hh : (0 <= sr / 2)%Z) by (apply Z.div_pos; lia).
  rewrite spectral_gating_trace, Hq, (py_slice_prefix y _ Hh).
  eexists. split; [reflexivity|]. split.
  - apply length_firstn.
  - intro Hshort. apply firstn_all2. lia.
Qed.

(* --------------------------------------------------------------- *)
(** *** The whole pipeline *)

Lemma main_pipeline_cases y sr :
  (get_duration y sr = Err (ZeroDivisionError "float division by zero") /\
   main_pipeline y sr = ([], Err (ZeroDivisionError "float division by zero")))
  \/
  (exists d, get_duration y sr = Ok d /\ d <= 1 /\
     main_pipeline y sr = predict_audio y class_names_main 22050 128 512 1)
  \/
  (exists d, get_duration y sr = Ok d /\ 1 < d /\
     main_pipeline y sr =
     (cough <- reduce_noise_and_extract_cough y sr (3 # 2) ;;
      predict_audio cough class_names_main 22050 128 512 1)).
Proof.
  destruct (get_duration y sr) as [d|e] eqn:Hd.
  - right. destruct (Qlt_le_dec 1 d) as [Hlt|Hle].
    + right. exists d. repeat split; auto. now apply main_pipeline_long with d.
    + left. exists d. repeat split; auto. now apply main_pipeline_short with d.
  - left. unfold get_duration in Hd.
    destruct (sr =? 0)%Z eqn:E; [|discriminate]. injection Hd as <-.
    split; [reflexivity|]. unfold main_pipeline, get_duration.
    rewrite E. reflexivity.
Qed.

Lemma duration_le_one y sr d :
  (0 < sr)%Z -> get_duration y sr = Ok d ->
  (d <= 1 <-> (Z.of_nat (length y) <= sr)%Z).
Proof.
  intros Hsr Hd. unfold get_duration in Hd.
  destruct (sr =? 0)%Z eqn:E; [apply Z.eqb_eq in E; lia|].
  injection Hd as <-.
  assert (Hq : 0 < inject_Z sr) by (rewrite <- (Zlt_Qlt 0); exact Hsr).
  rewrite Zle_Qle. split; intro H.
  - apply (Qmult_le_r _ _ (inject_Z sr) Hq) in H.
    assert (E' : inject_Z (Z.of_nat (length y)) / inject_Z sr * inject_Z sr ==
                 inject_Z (Z.of_nat (length y))) by (field; lra).
    lra.
  - apply Qle_shift_div_r; [exact Hq | lra].
Qed.

Lemma extract_cough_length (yd seg : signal) (sr : Z) :
  (0 < sr)%Z -> extract_cough yd sr = Ok seg ->
  seg <> [] /\ (Z.of_nat (length seg) <= sr)%Z.
Proof.
  intros Hsr Hseg.
  destruct (extract_cough_ok_inv _ _ _ Hseg) as [k [x [Hn [Hp [Hq ->]]]]].
  assert (Hk : (k < length yd)%nat) by (apply nth_error_Some; congruence).
  destruct (segment_indices k (Z.of_nat (length yd)) sr Hsr ltac:(lia))
    as [Hs [He [Hoff Hlen]]].
  set (s := start_idx_of (Z.of_nat k) sr) in *.
  set (e := end_idx_of (Z.of_nat (length yd)) s sr) in *.
  destruct (py_slice_inner yd s e ltac:(lia) ltac:(lia)) as [_ Hl].
  split; [|lia].
  intro E. rewrite E in Hl. simpl in Hl. lia.
Qed.

Lemma predict_audio_ok_inv audio class_names sr n_mels hop_length duration
    name d :
  value (predict_audio audio class_names sr n_mels hop_length duration) =
    Ok (name, d) ->
  exists t idx,
    value (preprocess audio sr n_mels hop_length duration (0, 1)) = Ok t /\
    torch_argmax (softmax (model t)) = Ok idx /\
    nth_error class_names idx = Some name /\
    probabilities_of class_names (softmax (model t)) = Ok d.
Proof.
  intro H.
  destruct (value (preprocess audio sr n_mels hop_length duration (0, 1)))
    as [t|e] eqn:Ht.
  2:{ unfold predict_audio in H. rewrite value_bind, Ht in H. discriminate. }
  rewrite (predict_audio_value _ _ _ _ _ _ t Ht) in H.
  destruct (torch_argmax (softmax (model t))) as [idx|] eqn:Hi; [|discriminate].
  unfold py_index in H.
  destruct (nth_error class_names idx) as [nm|] eqn:Hn; [|discriminate].
  destruct (probabilities_of class_names (softmax (model t))) as [d'|] eqn:Hp;
    [|discriminate].
  injection H as -> ->. exists t, idx. auto.
Qed.

(** X14. Whatever the sampling rate of the recording, the pipeline asks for
    the mel-spectrogram with [sr = 22050], [n_mels = 128] and
    [hop_length = 512]: [predict_audio] is called with its defaults. *)
Theorem pipeline_featurizer_parameters y sr a s n h :
  In (CallMelspectrogram a s n h) (trace (main_pipeline y sr)) ->
  s = 22050%Z /\ n = 128%Z /\ h = 512%Z.
Proof.
  intro Hin.
  assert (Hpred : forall audio,
             In (CallMelspectrogram a s n h)
                (trace (predict_audio audio class_names_main 22050 128 512 1)) ->
             s = 22050%Z /\ n = 128%Z /\ h = 512%Z).
  { intros audio H. rewrite predict_audio_trace in H.
    destruct H as [H|H].
    - injection H as _ <- <- <-. auto.
    - destruct (value (preprocess _ _ _ _ _ _)); simpl in H;
        [destruct H as [H|[]]; discriminate | destruct H]. }
  destruct (main_pipeline_cases y sr) as [[_ E]|[[d [_ [_ E]]]|[d [_ [_ E]]]]];
    rewrite E in Hin.
  - destruct Hin.
  - eauto.
  - rewrite trace_bind, reduce_noise_trace, spectral_gating_trace in Hin.
    apply in_app_or in Hin as [Hin|Hin].
    + destruct Hin as [H|[H|H]]; try discriminate.
      destruct (value (spectral_gating y sr (3 # 2))); simpl in H;
        [destruct H as [H|[]]; discriminate | destruct H].
    + destruct (value (reduce_noise_and_extract_cough y sr (3 # 2)));
        [eauto | destruct Hin].
Qed.

(** X15. For [sr > 0] the featurizer never sees more than one second of
    audio: the signal handed to the mel-spectrogram has at most [sr]
    samples. It is the recording itself when that has at most [sr] samples,
    and a non-empty extracted segment otherwise. *)
Theorem featurizer_input_at_most_one_second y sr a s n h :
  (0 < sr)%Z ->
  In (CallMelspectrogram a s n h) (trace (main_pipeline y sr)) ->
  (Z.of_nat (length a) <= sr)%Z /\
  ((Z.of_nat (length y) <= sr)%Z -> a = y) /\
  ((sr < Z.of_nat (length y))%Z ->
   a <> [] /\ value (reduce_noise_and_extract_cough y sr (3 # 2)) = Ok a).
Proof.
  intros Hsr Hin.
  assert (Hpred : forall audio,
             In (CallMelspectrogram a s n h)
                (trace (predict_audio audio class_names_main 22050 128 512 1)) ->
             a = audio).
  { intros audio H. rewrite predict_audio_trace in H.
    destruct H as [H|H].
    - now injection H as <- _ _ _.
    - destruct (value (preprocess _ _ _ _ _ _)); simpl in H;
        [destruct H as [H|[]]; discriminate | destruct H]. }
  destruct (main_pipeline_cases y sr) as [[_ E]|[[d [Hd [Hle E]]]|[d [Hd [Hlt E]]]]];
    rewrite E in Hin.
  - destruct Hin.
  - apply Hpred in Hin. subst a.
    apply (duration_le_one y sr d Hsr Hd) in Hle.
    split; [exact Hle|]. split; [reflexivity|]. lia.
  - assert (Hlong : (sr < Z.of_nat (length y))%Z).
    { destruct (Z_le_gt_dec (Z.of_nat (length y)) sr) as [L|G]; [|lia].
      apply (duration_le_one y sr d Hsr Hd) in L. lra. }
    rewrite trace_bind, reduce_noise_trace, spectral_gating_trace in Hin.
    apply in_app_or in Hin as [Hin|Hin].
    { exfalso. destruct Hin as [H|[H|H]]; try discriminate.
      destruct (value (spectral_gating y sr (3 # 2))); simpl in H;
        [destruct H as [H|[]]; discriminate | destruct H]. }
    destruct (value (reduce_noise_and_extract_cough y sr (3 # 2)))
      as [cough|] eqn:Hr; [|destruct Hin].
    apply Hpred in Hin. subst a.
    assert (Hx : exists yd, extract_cough yd sr = Ok cough).
    { rewrite reduce_noise_value in Hr.
      destruct (value (spectral_gating y sr (3 # 2))) as [yd|];
        [eauto | discriminate]. }
    destruct Hx as [yd Hx].
    destruct (extract_cough_length yd cough sr Hsr Hx) as [Hne Hlen].
    split; [exact Hlen|]. split; [lia|]. intros _. split; [exact Hne|reflexivity].
Qed.

(** X16. A run that returns a classification made its calls in a fixed
    order, each once: either the mel-spectrogram of the recording and the
    network, or the two STFTs, the inverse STFT, the mel-spectrogram of the
    extracted segment and the network. *)
Theorem pipeline_call_order y sr r :
  value (main_pipeline y sr) = Ok r ->
  trace (main_pipeline y sr) =
    [CallMelspectrogram y 22050 128 512; CallModel] \/
  exists seg,
    value (reduce_noise_and_extract_cough y sr (3 # 2)) = Ok seg /\
    trace (main_pipeline y sr) =
      [CallStft (py_slice y 0 (Z.quot sr 2)); CallStft y; CallIstft;
       CallMelspectrogram seg 22050 128 512; CallModel].
Proof.
  intro Hok. destruct r as [name d].
  assert (Hpred : forall audio,
             value (predict_audio audio class_names_main 22050 128 512 1) =
               Ok (name, d) ->
             trace (predict_audio audio class_names_main 22050 128 512 1) =
               [CallMelspectrogram audio 22050 128 512; CallModel]).
  { intros audio H. destruct (predict_audio_ok_inv _ _ _ _ _ _ _ _ H)
      as [t [idx [Ht _]]].
    now rewrite predict_audio_trace, Ht. }
  destruct (main_pipeline_cases y sr) as [[_ E]|[[d0 [_ [_ E]]]|[d0 [_ [_ E]]]]];
    rewrite E in Hok |- *.
  - discriminate.
  - left. auto.
  - right. rewrite value_bind in Hok.
    destruct (value (reduce_noise_and_extract_cough y sr (3 # 2)))
      as [seg|] eqn:Hr; [|discriminate].
    exists seg. split; [reflexivity|].
    rewrite trace_bind, Hr, reduce_noise_trace, spectral_gating_trace.
    rewrite (Hpred seg Hok).
    rewrite reduce_noise_value in Hr.
    destruct (value (spectral_gating y sr (3 # 2))); [reflexivity|discriminate].
Qed.

(* --------------------------------------------------------------- *)
(** *** More on the classification result *)

Lemma probabilities_loop_ok_bound names probs (n i : nat) (acc d : dict) :
  probabilities_loop names probs (seq i n) acc = Ok d ->
  (0 < n)%nat ->
  (i + n <= length names)%nat /\ (i + n <= length probs)%nat.
Proof.
  revert i acc. induction n as [|n IH]; intros i acc H Hn; [lia|].
  simpl in H. unfold py_index in H.
  destruct (nth_error names i) as [k|] eqn:Ek; [|discriminate].
  destruct (nth_error probs i) as [p|] eqn:Ep; [|discriminate].
  assert (Hi : (i < length names)%nat) by (apply nth_error_Some; congruence).
  assert (Hj : (i < length probs)%nat) by (apply nth_error_Some; congruence).
  destruct n as [|n']; [lia|].
  destruct (IH _ _ H ltac:(lia)). lia.
Qed.

Lemma probabilities_of_ok_inv names probs (d : dict) :
  NoDup names -> probabilities_of names probs = Ok d ->
  (length names <= length probs)%nat /\
  d = combine names (firstn (length names) probs).
Proof.
  intros Hnd H. unfold probabilities_of in H.
  destruct names as [|k names'] eqn:En.
  - simpl in H. injection H as <-. split; [simpl; lia | reflexivity].
  - rewrite <- En in *.
    assert (Hpos : (0 < length names)%nat) by (rewrite En; simpl; lia).
    destruct (probabilities_loop_ok_bound _ _ _ _ _ _ H Hpos) as [_ Hb].
    simpl in Hb. split; [exact Hb|].
    pose proof (probabilities_loop_distinct names probs (length names) 0 Hnd)
      as Hl.
    simpl in Hl. rewrite Hl in H by lia. injection H as <-.
    now rewrite firstn_all.
Qed.

Lemma probabilities_loop_short names probs (n i : nat) (acc : dict) :
  (i <= length probs)%nat -> (length probs < i + n)%nat ->
  (i + n <= length names)%nat ->
  probabilities_loop names probs (seq i n) acc =
  Err (IndexError "index out of range").
Proof.
  revert i acc. induction n as [|n IH]; intros i acc Hi Hn Hl; [lia|].
  simpl. unfold py_index.
  destruct (nth_error names i) as [k|] eqn:Ek.
  2:{ apply nth_error_None in Ek. lia. }
  destruct (nth_error probs i) as [p|] eqn:Ep; [|reflexivity].
  assert (i < length probs)%nat by (apply nth_error_Some; congruence).
  apply IH; lia.
Qed.

Lemma dict_get_some_in (d : dict) (k : string) (v : Q) :
  dict_get d k = Some v -> In v (dict_values d).
Proof.
  induction d as [|[k' v'] d IH]; simpl; [discriminate|].
  destruct (String.eqb k' k).
  - intro H. injection H as ->. now left.
  - intro H. right. now apply IH.
Qed.

Lemma dict_get_combine_nth (names : list string) (probs : list Q)
    (i : nat) (k : string) (v : Q) :
  NoDup names ->
  nth_error names i = Some k -> nth_error probs i = Some v ->
  dict_get (combine names probs) k = Some v.
Proof.
  intro Hnd. revert probs i.
  induction Hnd as [|a names Ha Hnd IH]; intros probs i Hk Hv.
  - destruct i; discriminate.
  - destruct probs as [|b probs]; [destruct i; discriminate|].
    destruct i as [|i]; simpl in *.
    + injection Hk as ->. injection Hv as ->. now rewrite String.eqb_refl.
    + destruct (String.eqb a k) eqn:E.
      * apply String.eqb_eq in E. subst a. exfalso. apply Ha.
        eapply nth_error_In; eauto.
      * eapply IH; eauto.
Qed.

(** X17. Whenever the pipeline returns, the label is one of the three class
    names and the dictionary has exactly the keys neither, viral, bacterial,
    in that order, whatever the network computes. *)
Theorem pipeline_label_in_vocabulary y sr name d :
  value (main_pipeline y sr) = Ok (name, d) ->
  In name class_names_main /\ dict_keys d = class_names_main.
Proof.
  intro Hok.
  assert (Hnd : NoDup class_names_main).
  { unfold class_names_main.
    apply NoDup_cons; [|apply NoDup_cons; [|apply NoDup_cons; [|apply NoDup_nil]]];
      simpl; intro H; repeat (destruct H as [H|H]; [discriminate|]); exact H. }
  assert (Hpred : forall audio,
             value (predict_audio audio class_names_main 22050 128 512 1) =
               Ok (name, d) ->
             In name class_names_main /\ dict_keys d = class_names_main).
  { intros audio H.
    destruct (predict_audio_ok_inv _ _ _ _ _ _ _ _ H)
      as [t [idx [_ [_ [Hn Hp]]]]].
    split; [eapply nth_error_In; eauto|].
    destruct (probabilities_of_ok_inv _ _ _ Hnd Hp) as [Hlen ->].
    apply keys_combine. rewrite length_firstn. lia. }
  destruct (main_pipeline_cases y sr) as [[_ E]|[[d0 [_ [_ E]]]|[d0 [_ [_ E]]]]];
    rewrite E in Hok.
  - discriminate.
  - eauto.
  - rewrite value_bind in Hok.
    destruct (value (reduce_noise_and_extract_cough y sr (3 # 2)));
      [eauto | discriminate].
Qed.

(** X2. A constant decibel spectrogram is not rejected: [predict_audio]
    goes on to call the network on the tensor it got. *)
Theorem constant_spectrogram_reaches_network
    audio class_names sr n_mels hop_length duration lo hi :
  let db := power_to_db (melspectrogram audio sr n_mels hop_length) in
  np_min db = Ok lo -> np_max db = Ok hi -> lo == hi ->
  trace (predict_audio audio class_names sr n_mels hop_length duration) =
    [CallMelspectrogram audio sr n_mels hop_length; CallModel].
Proof.
  intros db Hmin Hmax Heq.
  rewrite predict_audio_trace, preprocess_value. fold db.
  now rewrite (normalize_constant db lo hi 0 1 Hmin Hmax Heq).
Qed.

(** X5. A network with fewer logits than class names (but at least one)
    makes [predict_audio] fail with an [IndexError], raised by [probs[i]]
    in the dictionary comprehension, after the network has been called. *)
Theorem too_few_logits_raise
    audio class_names sr n_mels hop_length duration t :
  value (preprocess audio sr n_mels hop_length duration (0, 1)) = Ok t ->
  (0 < length (model t) < length class_names)%nat ->
  (exists msg,
     value (predict_audio audio class_names sr n_mels hop_length duration) =
       Err (IndexError msg)) /\
  In CallModel
     (trace (predict_audio audio class_names sr n_mels hop_length duration)).
Proof.
  intros Ht [Hpos Hlt].
  set (probs := softmax (model t)).
  assert (Hpl : length probs = length (model t)) by apply softmax_length.
  assert (Hne : probs <> []).
  { intro E. rewrite E in Hpl. simpl in Hpl. lia. }
  destruct (torch_argmax_total probs Hne) as [idx Hidx].
  destruct (torch_argmax_spec probs idx Hidx) as [p [Hp _]].
  assert (Hi : (idx < length probs)%nat) by (apply nth_error_Some; congruence).
  destruct (nth_error class_names idx) as [name|] eqn:Hname.
  2:{ apply nth_error_None in Hname. lia. }
  split.
  - eexists. rewrite (predict_audio_value _ _ _ _ _ _ t Ht). fold probs.
    rewrite Hidx. unfold py_index. rewrite Hname.
    unfold probabilities_of.
    rewrite probabilities_loop_short by lia. reflexivity.
  - rewrite predict_audio_trace, Ht. simpl. auto.
Qed.

(** X6. A network with more logits than (distinct) class names is not
    rejected either. If the arg-max falls inside the class list, the
    dictionary keeps only the first [len(class_names)] probabilities and
    drops the others; if it falls outside, [class_names[idx]] raises an
    [IndexError]. *)
Theorem extra_logits_are_truncated
    audio class_names sr n_mels hop_length duration t :
  value (preprocess audio sr n_mels hop_length duration (0, 1)) = Ok t ->
  NoDup class_names ->
  (length class_names < length (model t))%nat ->
  exists idx,
    torch_argmax (softmax (model t)) = Ok idx /\
    ((idx < length class_names)%nat ->
     exists name d,
       value (predict_audio audio class_names sr n_mels hop_length duration) =
         Ok (name, d) /\
       dict_keys d = class_names /\
       dict_values d = firstn (length class_names) (softmax (model t)) /\
       (length (dict_values d) < length (softmax (model t)))%nat) /\
    ((length class_names <= idx)%nat ->
     exists msg,
       value (predict_audio audio class_names sr n_mels hop_length duration) =
         Err (IndexError msg)).
Proof.
  intros Ht Hnd Hlt.
  set (probs := softmax (model t)).
  assert (Hpl : length probs = length (model t)) by apply softmax_length.
  assert (Hlogits : model t <> []).
  { intro E. rewrite E in Hlt. simpl in Hlt. lia. }
  assert (Hne : probs <> []).
  { intro E. rewrite E in Hpl. simpl in Hpl. lia. }
  destruct (torch_argmax_total probs Hne) as [idx Hidx].
  exists idx. split; [exact Hidx|]. split.
  - intro Hi.
    destruct (nth_error class_names idx) as [name|] eqn:Hname.
    2:{ apply nth_error_None in Hname. lia. }
    set (n := length class_names) in *.
    exists name, (combine class_names (firstn n probs)).
    assert (Hfl : length class_names = length (firstn n probs)).
    { rewrite length_firstn. unfold n. lia. }
    assert (Hv : dict_values (combine class_names (firstn n probs)) =
                 firstn n probs) by (now apply values_combine).
    split; [|split; [|split]].
    + rewrite (predict_audio_value _ _ _ _ _ _ t Ht). fold probs.
      rewrite Hidx. unfold py_index. rewrite Hname.
      unfold probabilities_of.
      pose proof (probabilities_loop_distinct class_names probs n 0 Hnd) as Hl.
      simpl in Hl. fold n. rewrite Hl by (unfold n; lia).
      unfold n at 1. now rewrite firstn_all.
    + now apply keys_combine.
    + exact Hv.
    + rewrite Hv, length_firstn. fold probs. unfold n. lia.
  - intro Hi. eexists.
    rewrite (predict_audio_value _ _ _ _ _ _ t Ht). fold probs.
    rewrite Hidx. unfold py_index.
    destruct (nth_error class_names idx) eqn:Hname; [|reflexivity].
    exfalso. assert (idx < length class_names)%nat; [|lia].
    apply nth_error_Some. congruence.
Qed.

(** X4. With one logit per class name and distinct class names, looking up
    the [i]-th class name in the returned dictionary gives the [i]-th softmax
    probability, and the returned label is a key whose probability is the
    largest in the dictionary. *)
Theorem label_has_largest_probability
    audio class_names sr n_mels hop_length duration t :
  value (preprocess audio sr n_mels hop_length duration (0, 1)) = Ok t ->
  length (model t) = length class_names ->
  class_names <> [] ->
  NoDup class_names ->
  exists name d p,
    value (predict_audio audio class_names sr n_mels hop_length duration) =
      Ok (name, d) /\
    (forall i c q,
        nth_error class_names i = Some c ->
        nth_error (softmax (model t)) i = Some q ->
        dict_get d c = Some q) /\
    dict_get d name = Some p /\
    (forall c q, dict_get d c = Some q -> q <= p).
Proof.
  intros Ht Hlen Hne Hnd.
  set (probs := softmax (model t)).
  assert (Hpl : length probs = length class_names).
  { unfold probs. now rewrite softmax_length. }
  assert (Hprobs : probs <> []).
  { intro E. rewrite E in Hpl. destruct class_names; [congruence|].
    discriminate. }
  destruct (torch_argmax_total probs Hprobs) as [idx Hidx].
  destruct (torch_argmax_spec probs idx Hidx) as [p [Hp [Hmax _]]].
  assert (Hi : (idx < length class_names)%nat).
  { rewrite <- Hpl. apply nth_error_Some. congruence. }
  destruct (nth_error class_names idx) as [name|] eqn:Hname.
  2:{ apply nth_error_None in Hname. lia. }
  exists name, (combine class_names probs), p.
  split; [|split; [|split]].
  - rewrite (predict_audio_value _ _ _ _ _ _ t Ht). fold probs.
    rewrite Hidx. unfold py_index. rewrite Hname.
    now rewrite (probabilities_of_distinct class_names probs Hnd Hpl).
  - intros i c q Hc Hq. now apply dict_get_combine_nth with i.
  - now apply dict_get_combine_nth with idx.
  - intros c q Hq. apply Hmax. apply dict_get_some_in in Hq.
    rewrite values_combine in Hq by lia. exact Hq.
Qed.

(* --------------------------------------------------------------- *)
(** *** More on the normalisation *)



(* --------------------------------------------------------------- *)
(** *** The report *)

Lemma round_half_even_spec (x : Q) :
  inject_Z (round_half_even x) - (1 # 2) <= x /\
  x <= inject_Z (round_half_even x) + (1 # 2).
Proof.
  unfold round_half_even.
  pose proof (Qround.Qfloor_le x) as Hlo.
  pose proof (Qround.Qlt_floor x) as Hhi.
  rewrite inject_Z_plus in Hhi.
  set (f := Qround.Qfloor x) in *.
  assert (E1 : inject_Z 1 == 1) by reflexivity.
  destruct (Qcompare (x - inject_Z f) (1 # 2)) eqn:C.
  - apply Qeq_alt in C.
    destruct (Z.even f); [|rewrite inject_Z_plus]; split; lra.
  - apply Qlt_alt in C. split; lra.
  - apply Qgt_alt in C. rewrite inject_Z_plus. split; lra.
Qed.

Lemma round_half_even_range (x : Q) (N : Z) :
  0 <= x -> x <= inject_Z N ->
  (0 <= round_half_even x <= N)%Z.
Proof.
  intros H0 HN. destruct (round_half_even_spec x) as [Hlo Hhi].
  set (r := round_half_even x) in *. split.
  - destruct (Z_lt_le_dec r 0) as [L|G]; [|exact G]. exfalso.
    assert (Hr : (r <= -1)%Z) by lia.
    rewrite Zle_Qle in Hr. change (inject_Z (-1)) with (-1 # 1) in Hr. lra.
  - destruct (Z_le_gt_dec r N) as [L|G]; [exact L|]. exfalso.
    assert (Hr : (N + 1 <= r)%Z) by lia.
    rewrite Zle_Qle, inject_Z_plus in Hr.
    change (inject_Z 1) with 1 in Hr. lra.
Qed.

(** A probability is written as one digit, the point and four digits, and
    the number written is within 0.00005 of it. *)
Lemma format_4f_unit_interval (p : Q) :
  0 <= p <= 1 ->
  exists w d1 d2 d3 d4 : Z,
    (0 <= w <= 1)%Z /\ (0 <= d1 <= 9)%Z /\ (0 <= d2 <= 9)%Z /\
    (0 <= d3 <= 9)%Z /\ (0 <= d4 <= 9)%Z /\
    format_4f p =
      String (digit_char w)
        (String decimal_point
           (String (digit_char d1)
              (String (digit_char d2)
                 (String (digit_char d3)
                    (String (digit_char d4) EmptyString))))) /\
    Qabs (inject_Z (10000 * w + 1000 * d1 + 100 * d2 + 10 * d3 + d4) / 10000
          - p) <= 1 # 20000.
Proof.
  intros [H0 H1]. unfold format_4f.
  assert (Ha : Qabs p == p) by (now apply Qabs_pos).
  assert (Hs : Qltb p 0 = false) by (now apply Qltb_nlt).
  rewrite Hs.
  destruct (round_half_even_spec (Qabs p * 10000)) as [Hlo Hhi].
  assert (Hr : (0 <= round_half_even (Qabs p * 10000) <= 10000)%Z).
  { apply round_half_even_range.
    - rewrite Ha. lra.
    - change (inject_Z 10000) with 10000. rewrite Ha. lra. }
  set (n := round_half_even (Qabs p * 10000)) in *.
  exists (n / 10000)%Z, (n mod 10000 / 1000)%Z, (n mod 10000 / 100 mod 10)%Z,
    (n mod 10000 / 10 mod 10)%Z, (n mod 10000 mod 10)%Z.
  assert (Hw : (0 <= n / 10000 <= 1)%Z) by (Z.to_euclidean_division_equations; lia).
  split; [exact Hw|]. split; [Z.to_euclidean_division_equations; lia|]. split; [Z.to_euclidean_division_equations; lia|]. split; [Z.to_euclidean_division_equations; lia|].
  split; [Z.to_euclidean_division_equations; lia|]. split.
  - assert (W : (n / 10000 = 0 \/ n / 10000 = 1)%Z) by (Z.to_euclidean_division_equations; lia).
    destruct W as [W|W]; rewrite W; reflexivity.
  - assert (E : (10000 * (n / 10000) + 1000 * (n mod 10000 / 1000) +
                 100 * (n mod 10000 / 100 mod 10) +
                 10 * (n mod 10000 / 10 mod 10) + n mod 10000 mod 10 = n)%Z)
      by (Z.to_euclidean_division_equations; lia).
    rewrite E. apply Qabs_Qle_condition.
    assert (Hd : inject_Z n / 10000 * 10000 == inject_Z n) by (field; lra).
    rewrite Ha in Hlo, Hhi. split; lra.
Qed.

(** X18. Whenever the pipeline returns, the report has five writes: the
    prediction, the heading, and one line for neither, viral and bacterial
    in that order. Each probability is written as a digit 0 or 1, a point
    and four decimals, within 0.00005 of its value. *)
Theorem pipeline_report y sr name d :
  value (main_pipeline y sr) = Ok (name, d) ->
  exists p1 p2 p3,
    d = [("neither", p1); ("viral", p2); ("bacterial", p3)]%string /\
    report name d =
      [("Prediction: " ++ name ++ newline)%string;
       ("Class probabilities:" ++ newline)%string;
       ("  neither: " ++ format_4f p1 ++ newline)%string;
       ("  viral: " ++ format_4f p2 ++ newline)%string;
       ("  bacterial: " ++ format_4f p3 ++ newline)%string] /\
    forall p, In p [p1; p2; p3] ->
      exists w d1 d2 d3 d4 : Z,
        (0 <= w <= 1)%Z /\ (0 <= d1 <= 9)%Z /\ (0 <= d2 <= 9)%Z /\
        (0 <= d3 <= 9)%Z /\ (0 <= d4 <= 9)%Z /\
        format_4f p =
          String (digit_char w)
            (String decimal_point
               (String (digit_char d1)
                  (String (digit_char d2)
                     (String (digit_char d3)
                        (String (digit_char d4) EmptyString))))) /\
        Qabs (inject_Z (10000 * w + 1000 * d1 + 100 * d2 + 10 * d3 + d4)
              / 10000 - p) <= 1 # 20000.
Proof.
  intro Hok.
  assert (Hnd : NoDup class_names_main).
  { unfold class_names_main.
    apply NoDup_cons; [|apply NoDup_cons; [|apply NoDup_cons; [|apply NoDup_nil]]];
      simpl; intro H; repeat (destruct H as [H|H]; [discriminate|]); exact H. }
  assert (Hpred : exists audio,
             value (predict_audio audio class_names_main 22050 128 512 1) =
               Ok (name, d)).
  { destruct (main_pipeline_cases y sr)
      as [[_ E]|[[d0 [_ [_ E]]]|[d0 [_ [_ E]]]]]; rewrite E in Hok.
    - discriminate.
    - eauto.
    - rewrite value_bind in Hok.
      destruct (value (reduce_noise_and_extract_cough y sr (3 # 2)));
        [eauto | discriminate]. }
  destruct Hpred as [audio Hpred].
  destruct (predict_audio_ok_inv _ _ _ _ _ _ _ _ Hpred)
    as [t [idx [_ [_ [_ Hp]]]]].
  destruct (probabilities_of_ok_inv _ _ _ Hnd Hp) as [Hlen Hd].
  set (probs := softmax (model t)) in *.
  assert (Hunit : forall p, In p probs -> 0 <= p <= 1).
  { intros p Hin. now apply softmax_unit_interval with (model t). }
  destruct probs as [|p1 [|p2 [|p3 rest]]]; simpl in Hlen; try lia.
  exists p1, p2, p3. simpl in Hd. split; [exact Hd|]. split.
  - rewrite Hd. reflexivity.
  - intros p Hin. apply format_4f_unit_interval. apply Hunit.
    simpl in Hin |- *.
    destruct Hin as [<-|[<-|[<-|[]]]]; auto.
Qed.

(* --------------------------------------------------------------- *)
(** *** Storage keys *)

Lemma string_length_append (s t : string) :
  String.length (s ++ t)%string = (String.length s + String.length t)%nat.
Proof.
  induction s as [|c s IH]; simpl; [reflexivity | now rewrite IH].
Qed.

Lemma append_cancel_r (t s s' : string) :
  (s ++ t)%string = (s' ++ t)%string -> s = s'.
Proof.
  revert s'. induction s as [|c s IH]; intros [|c' s'] H; simpl in H.
  - reflexivity.
  - exfalso. apply (f_equal String.length) in H. simpl in H.
    rewrite string_length_append in H. lia.
  - exfalso. apply (f_equal String.length) in H. simpl in H.
    rewrite string_length_append in H. lia.
  - injection H as -> H. f_equal. now apply IH.
Qed.

Lemma session_prefix_inj (a b : option string) :
  session_prefix a = session_prefix b ->
  a = b \/
  ((a = None \/ a = Some EmptyString) /\ (b = None \/ b = Some EmptyString)).
Proof.
  destruct a as [[|c s]|]; destruct b as [[|c' s']|]; simpl; intro H;
    try discriminate; auto.
  left. injection H as -> H. apply append_cancel_r in H. now subst.
Qed.

(** X19. Two runs read from the same input prefix, or write the same output
    key, exactly when they have the same session id or both have none (an
    unset and an empty [SESSION_ID] are not told apart). *)
Theorem session_keys_collide_iff (a b : option string) :
  (output_key a = output_key b <-> input_prefix a = input_prefix b) /\
  (output_key a = output_key b <->
   a = b \/
   ((a = None \/ a = Some EmptyString) /\ (b = None \/ b = Some EmptyString))).
Proof.
  assert (Hout : output_key a = output_key b <->
                 session_prefix a = session_prefix b).
  { unfold output_key. split; intro H.
    - now apply append_cancel_r in H.
    - now rewrite H. }
  assert (Hin : input_prefix a = input_prefix b <->
                session_prefix a = session_prefix b).
  { unfold input_prefix. split; intro H.
    - now apply append_cancel_r in H.
    - now rewrite H. }
  split.
  - rewrite Hout, Hin. reflexivity.
  - rewrite Hout. split.
    + apply session_prefix_inj.
    + intros [->|[[->| ->] [->| ->]]]; reflexivity.
Qed.

End Pipeline.

(* ================================================================= *)
(** ** The pipeline on concrete signals *)

Notation "'toy_preprocess'" := (preprocess toy_melspectrogram toy_power_to_db).
Notation "'toy_predict_audio'" :=
  (predict_audio toy_melspectrogram toy_power_to_db toy_model toy_exp).
Notation "'toy_spectral_gating'" :=
  (spectral_gating toy_complex toy_abs toy_angle toy_polar toy_stft toy_istft).
Notation "'toy_reduce_noise_and_extract_cough'" :=
  (reduce_noise_and_extract_cough toy_complex toy_abs toy_angle toy_polar
     toy_stft toy_istft).
Notation "'toy_main_pipeline'" :=
  (main_pipeline toy_complex toy_abs toy_angle toy_polar toy_stft toy_istft
     toy_melspectrogram toy_power_to_db toy_model toy_exp).

Ltac by_evaluation := vm_compute; reflexivity.

Lemma toy_exp_pos (x : Q) : 0 < toy_exp x.
Proof.
  unfold toy_exp.
  assert (H : 0 <= x * x).
  { destruct (Qlt_le_dec x 0) as [Hn|Hp].
    - setoid_replace (x * x) with ((- x) * (- x)) by ring.
      apply Qmult_le_0_compat; lra.
    - apply Qmult_le_0_compat; lra. }
  lra.
Qed.

Lemma toy_power_to_db_shape (s : matrix Q) (r c : nat) :
  is_matrix s r c -> is_matrix (toy_power_to_db s) r c.
Proof.
  unfold toy_power_to_db. destruct (list_max (concat s)); [|auto].
  apply is_matrix_mmap.
Qed.

Lemma class_names_main_distinct : NoDup class_names_main.
Proof.
  unfold class_names_main.
  repeat constructor; simpl; intuition discriminate.
Qed.

(** One second of silence: the decibel spectrogram is constant and the
    feature tensor is 128 x 44 cells of NaN. *)
Lemma preprocess_silence_is_nan :
  value (toy_preprocess silent_audio 22050 128 512 1 (0, 1)) =
  Ok [[repeat (repeat NaN 44) 128]].
Proof.
  pose proof (preprocess_constant_spectrogram_is_nan
                toy_melspectrogram toy_power_to_db
                silent_audio 22050 128 512 1 0 1 0 0) as H.
  cbv zeta in H.
  destruct H as [H _].
  - by_evaluation.
  - by_evaluation.
  - reflexivity.
  - rewrite H. by_evaluation.
Defined.



(** With the default range the same decibels are scaled into [[0, 1]] and
    both bounds are attained, in binary64 as in exact arithmetic. *)
Lemma normalization_hits_default_range_in_binary64 :
  option_map (Binary64.within_range Binary64.default_range)
    (Binary64.normalize_f64 Binary64.sample_db Binary64.default_range)
    = Some true /\
  option_map (Binary64.attains (fst Binary64.default_range))
    (Binary64.normalize_f64 Binary64.sample_db Binary64.default_range)
    = Some true /\
  option_map (Binary64.attains (snd Binary64.default_range))
    (Binary64.normalize_f64 Binary64.sample_db Binary64.default_range)
    = Some true.
Proof.
  repeat split; vm_compute; reflexivity.
Qed.

Lemma preprocess_shape_witness :
  exists t,
    value (toy_preprocess ramp_audio 22050 2 2 1 (0, 1)) = Ok t /\
    has_shape4 t 1 1 2 3 /\ (1 <= 3)%nat.
Proof.
  apply (preprocess_shape toy_melspectrogram toy_power_to_db
           ramp_audio 22050 2 2 1 (0, 1) 3).
  - reflexivity.
  - reflexivity.
  - vm_compute. repeat constructor.
  - apply toy_power_to_db_shape.
Defined.

(** Two seconds below the threshold: the pipeline ends with the "No cough
    detected" error after the three calls of the denoiser. *)
Lemma quiet_audio_stops_pipeline :
  value (toy_main_pipeline quiet_audio 3) = Err no_cough /\
  Forall (fun e => is_inference_call e = false)
         (trace (toy_main_pipeline quiet_audio 3)).
Proof.
  destruct (segmenter_fails_exactly_on_silence
              toy_complex toy_abs toy_angle toy_polar toy_stft toy_istft
              toy_melspectrogram toy_power_to_db toy_model toy_exp
              quiet_audio 3 (3 # 2)
              [0 # 2; 2 # 100; - (2) # 50; 2 # 200; 0 # 2; 0 # 2])
    as [Hiff Hpipe].
  - by_evaluation.
  - apply (Hpipe (6 # 3)).
    + reflexivity.
    + by_evaluation.
    + reflexivity.
    + apply Hiff. by_evaluation.
Defined.

Lemma segment_bounds_witness :
  exists (first : nat) (x : Q),
    nth_error [0 # 2; 0 # 2; 0 # 2; 2 # 2; 0 # 2; 0 # 2] first = Some x /\
    amplitude_threshold < Qabs x /\
    Forall quiet (firstn first [0 # 2; 0 # 2; 0 # 2; 2 # 2; 0 # 2; 0 # 2]) /\
    let start_idx := start_idx_of (Z.of_nat first) 3 in
    let end_idx := end_idx_of 6 start_idx 3 in
    let segment :=
      firstn (Z.to_nat (end_idx - start_idx))
             (skipn (Z.to_nat start_idx)
                    [0 # 2; 0 # 2; 0 # 2; 2 # 2; 0 # 2; 0 # 2]) in
    value (toy_reduce_noise_and_extract_cough short_cough 3 (3 # 2)) =
      Ok segment /\
    start_idx = Z.max 0 (Z.of_nat first - 3 / 2) /\
    end_idx = Z.min 6 (start_idx + 3) /\
    (0 <= start_idx <= Z.of_nat first)%Z /\
    (Z.of_nat first < end_idx)%Z /\
    Z.of_nat (length segment) = (end_idx - start_idx)%Z /\
    (Z.of_nat (length segment) <= 3)%Z.
Proof.
  apply (segment_bounds
           toy_complex toy_abs toy_angle toy_polar toy_stft toy_istft
           short_cough 3 (3 # 2) [0 # 2; 0 # 2; 0 # 2; 2 # 2; 0 # 2; 0 # 2]).
  - reflexivity.
  - by_evaluation.
  - do 3 apply Exists_cons_tl. apply Exists_cons_hd. reflexivity.
Defined.

Lemma gating_clamps_at_zero_witness :
  exists mags,
    gate (mmap toy_abs (toy_stft ramp_audio))
         (map (Qmult (3 # 2))
              (noise_power_of toy_complex toy_abs
                 (toy_stft (py_slice ramp_audio 0 (Z.quot 2 2))))) = Ok mags /\
    value (toy_spectral_gating ramp_audio 2 (3 # 2)) =
      Ok (toy_istft (mzip toy_polar mags
                          (mmap toy_angle (toy_stft ramp_audio)))) /\
    forall f t c,
      cell (toy_stft ramp_audio) f t = Some c ->
      exists p m,
        nth_error (noise_power_of toy_complex toy_abs
                     (toy_stft (py_slice ramp_audio 0 (Z.quot 2 2)))) f
          = Some p /\
        cell mags f t = Some m /\
        m = Qmax (toy_abs c - (3 # 2) * p) 0 /\
        0 <= m /\
        cell (mzip toy_polar mags (mmap toy_angle (toy_stft ramp_audio))) f t
          = Some (toy_polar m (toy_angle c)).
Proof.
  apply (gating_clamps_at_zero
           toy_complex toy_abs toy_angle toy_polar toy_stft toy_istft
           ramp_audio 2 (3 # 2)).
  - reflexivity.
  - vm_compute. repeat constructor; discriminate.
Defined.

Lemma denoising_iff_longer_than_one_second_witness :
  (existsb is_denoising_call (trace (toy_main_pipeline short_cough 3)) = true
   <-> 1 < 6 # 3) /\
  (1 < 6 # 3 ->
   toy_main_pipeline short_cough 3 =
   (cough <- toy_reduce_noise_and_extract_cough short_cough 3 (3 # 2) ;;
    toy_predict_audio cough class_names_main 22050 128 512 1)) /\
  (6 # 3 <= 1 ->
   toy_main_pipeline short_cough 3 =
     toy_predict_audio short_cough class_names_main 22050 128 512 1 /\
   exists rest,
     trace (toy_main_pipeline short_cough 3) =
     CallMelspectrogram short_cough 22050 128 512 :: rest) /\
  6 # 3 == inject_Z (Z.of_nat (length short_cough)) / inject_Z 3.
Proof.
  apply (denoising_iff_longer_than_one_second
           toy_complex toy_abs toy_angle toy_polar toy_stft toy_istft
           toy_melspectrogram toy_power_to_db toy_model toy_exp
           short_cough 3 (6 # 3)).
  by_evaluation.
Defined.

Lemma probabilities_form_distribution_witness :
  exists name probabilities,
    value (toy_predict_audio ramp_audio class_names_main 22050 2 2 1) =
      Ok (name, probabilities) /\
    dict_keys probabilities = class_names_main /\
    dict_values probabilities =
      softmax toy_exp
        (toy_model [[[[Fin (0 # 4); Fin (4 # 4); Fin (0 # 4)];
                      [Fin (0 # 4); Fin (4 # 4); Fin (0 # 4)]]]]) /\
    (forall c, In c class_names_main ->
       exists p, dict_get probabilities c = Some p /\ 0 <= p <= 1) /\
    Qabs (Qsum (dict_values probabilities) - 1) <= 1 # 10000.
Proof.
  destruct (probabilities_form_distribution
              toy_melspectrogram toy_power_to_db toy_model toy_exp toy_exp_pos
              ramp_audio class_names_main 22050 2 2 1 (- (4)) 0)
    as [t [Ht [_ [Hspread _]]]].
  - by_evaluation.
  - by_evaluation.
  - assert (E : t = ramp_tensor).
    { assert (H : value (toy_preprocess ramp_audio 22050 2 2 1 (0, 1)) =
                  Ok ramp_tensor) by by_evaluation.
      rewrite Ht in H. now injection H. }
    subst t.
    destruct (Hspread ltac:(reflexivity)) as [_ Hdist].
    apply Hdist.
    + reflexivity.
    + discriminate.
    + exact class_names_main_distinct.
Defined.

Lemma predicted_class_is_first_argmax_witness :
  exists idx name probabilities p,
    value (toy_predict_audio ramp_audio class_names_main 22050 2 2 1) =
      Ok (name, probabilities) /\
    nth_error class_names_main idx = Some name /\
    nth_error
      (softmax toy_exp
         (toy_model [[[[Fin (0 # 4); Fin (4 # 4); Fin (0 # 4)];
                       [Fin (0 # 4); Fin (4 # 4); Fin (0 # 4)]]]])) idx
      = Some p /\
    (forall q,
        In q (softmax toy_exp
                (toy_model [[[[Fin (0 # 4); Fin (4 # 4); Fin (0 # 4)];
                              [Fin (0 # 4); Fin (4 # 4); Fin (0 # 4)]]]])) ->
        q <= p) /\
    (forall j q, (j < idx)%nat ->
       nth_error
         (softmax toy_exp
            (toy_model [[[[Fin (0 # 4); Fin (4 # 4); Fin (0 # 4)];
                          [Fin (0 # 4); Fin (4 # 4); Fin (0 # 4)]]]])) j
         = Some q ->
       q < p).
Proof.
  apply (predicted_class_is_first_argmax
           toy_melspectrogram toy_power_to_db toy_model toy_exp
           ramp_audio class_names_main 22050 2 2 1).
  - by_evaluation.
  - reflexivity.
  - discriminate.
Defined.

(* ================================================================= *)
(** ** Further runs on concrete signals *)

Lemma toy_magnitude_nonneg (c : toy_complex) : 0 <= toy_magnitude c.
Proof. apply Qabs_nonneg. Qed.


Lemma silence_reaches_network :
  trace (toy_predict_audio silent_audio class_names_main 22050 128 512 1) =
  [CallMelspectrogram silent_audio 22050 128 512; CallModel].
Proof.
  apply (constant_spectrogram_reaches_network
           toy_melspectrogram toy_power_to_db toy_model toy_exp
           silent_audio class_names_main 22050 128 512 1 0 0).
  - by_evaluation.
  - by_evaluation.
  - reflexivity.
Defined.

Lemma label_has_largest_probability_witness :
  exists name d p,
    value (toy_predict_audio ramp_audio class_names_main 22050 2 2 1) =
      Ok (name, d) /\
    (forall i c q,
        nth_error class_names_main i = Some c ->
        nth_error (softmax toy_exp (toy_model ramp_tensor)) i = Some q ->
        dict_get d c = Some q) /\
    dict_get d name = Some p /\
    (forall c q, dict_get d c = Some q -> q <= p).
Proof.
  apply (label_has_largest_probability
           toy_melspectrogram toy_power_to_db toy_model toy_exp
           ramp_audio class_names_main 22050 2 2 1 ramp_tensor).
  - by_evaluation.
  - reflexivity.
  - discriminate.
  - exact class_names_main_distinct.
Defined.

Lemma too_few_logits_raise_witness :
  (exists msg,
     value (predict_audio toy_melspectrogram toy_power_to_db narrow_model
              toy_exp ramp_audio class_names_main 22050 2 2 1) =
       Err (IndexError msg)) /\
  In CallModel
     (trace (predict_audio toy_melspectrogram toy_power_to_db narrow_model
               toy_exp ramp_audio class_names_main 22050 2 2 1)).
Proof.
  apply (too_few_logits_raise
           toy_melspectrogram toy_power_to_db narrow_model toy_exp
           ramp_audio class_names_main 22050 2 2 1 ramp_tensor).
  - by_evaluation.
  - simpl. lia.
Defined.

Lemma extra_logits_are_truncated_witness :
  exists name d,
    value (predict_audio toy_melspectrogram toy_power_to_db wide_model
             toy_exp ramp_audio class_names_main 22050 2 2 1) =
      Ok (name, d) /\
    dict_keys d = class_names_main /\
    (length (dict_values d) <
     length (softmax toy_exp (wide_model ramp_tensor)))%nat.
Proof.
  destruct (extra_logits_are_truncated
              toy_melspectrogram toy_power_to_db wide_model toy_exp
              ramp_audio class_names_main 22050 2 2 1 ramp_tensor)
    as [idx [Hidx [Hin _]]].
  - by_evaluation.
  - exact class_names_main_distinct.
  - simpl. lia.
  - assert (E : idx = 1%nat).
    { vm_compute in Hidx. now injection Hidx. }
    destruct (Hin ltac:(rewrite E; simpl; lia)) as [name [d [Hv [Hk [_ Hs]]]]].
    exists name, d. auto.
Defined.

Lemma noise_sample_is_leading_half_second_witness :
  exists rest,
    trace (toy_spectral_gating ramp_audio 2 (3 # 2)) =
      CallStft (firstn (Z.to_nat (2 / 2)) ramp_audio) ::
      CallStft ramp_audio :: rest /\
    length (firstn (Z.to_nat (2 / 2)) ramp_audio) =
      Nat.min (Z.to_nat (2 / 2)) (length ramp_audio) /\
    ((Z.of_nat (length ramp_audio) <= 2 / 2)%Z ->
     firstn (Z.to_nat (2 / 2)) ramp_audio = ramp_audio).
Proof.
  apply (noise_sample_is_leading_half_second
           toy_complex toy_abs toy_angle toy_polar toy_stft toy_istft
           ramp_audio 2 (3 # 2)).
  discriminate.
Defined.

Lemma gating_never_amplifies_witness :
  exists mags,
    gate (mmap toy_magnitude (toy_stft ramp_audio))
         (map (Qmult (3 # 2))
              (noise_power_of toy_complex toy_magnitude
                 (toy_stft (py_slice ramp_audio 0 (Z.quot 2 2))))) = Ok mags /\
    forall f t c,
      cell (toy_stft ramp_audio) f t = Some c ->
      exists p m,
        nth_error (noise_power_of toy_complex toy_magnitude
                     (toy_stft (py_slice ramp_audio 0 (Z.quot 2 2)))) f
          = Some p /\
        0 <= p /\
        cell mags f t = Some m /\
        0 <= m <= toy_magnitude c /\
        (m == 0 <-> toy_magnitude c <= (3 # 2) * p) /\
        ((3 # 2) * p < toy_magnitude c -> m == toy_magnitude c - (3 # 2) * p).
Proof.
  apply (gating_never_amplifies
           toy_complex toy_magnitude toy_stft ramp_audio 2 (3 # 2)).
  - reflexivity.
  - vm_compute. repeat constructor; discriminate.
  - exact toy_magnitude_nonneg.
  - discriminate.
Defined.

Lemma gating_preserves_shape_witness :
  exists stft_denoised,
    value (toy_spectral_gating ramp_audio 2 (3 # 2)) =
      Ok (toy_istft stft_denoised) /\
    is_matrix stft_denoised 1 4 /\
    trace (toy_spectral_gating ramp_audio 2 (3 # 2)) =
      [CallStft (py_slice ramp_audio 0 (Z.quot 2 2)); CallStft ramp_audio;
       CallIstft].
Proof.
  apply (gating_preserves_shape
           toy_complex toy_abs toy_angle toy_polar toy_stft toy_istft
           ramp_audio 2 (3 # 2) 1 4).
  - vm_compute. repeat constructor.
  - reflexivity.
Defined.

Lemma cough_offset_in_segment_witness :
  exists (first : nat) (x : Q),
    nth_error short_cough first = Some x /\ amplitude_threshold < Qabs x /\
    Forall quiet (firstn first short_cough) /\
    let offset := Nat.min first (Z.to_nat (3 / 2)) in
    nth_error [0; 1; 0] offset = Some x /\
    Forall quiet (firstn offset [0; 1; 0]).
Proof.
  apply (cough_offset_in_segment short_cough [0; 1; 0] 3).
  - reflexivity.
  - by_evaluation.
Defined.

Lemma segment_full_or_tail_witness :
  exists start : Z,
    (0 <= start < Z.of_nat (length short_cough))%Z /\
    [0; 1; 0] <> [] /\
    ((start + 3 <= Z.of_nat (length short_cough))%Z ->
     Z.of_nat (length [0; 1; 0]) = 3%Z /\
     [0; 1; 0] = firstn (Z.to_nat 3) (skipn (Z.to_nat start) short_cough)) /\
    ((Z.of_nat (length short_cough) < start + 3)%Z ->
     (Z.of_nat (length [0; 1; 0]) < 3)%Z /\
     [0; 1; 0] = skipn (Z.to_nat start) short_cough).
Proof.
  apply (segment_full_or_tail short_cough [0; 1; 0] 3).
  - reflexivity.
  - by_evaluation.
Defined.

Lemma extract_cough_ignores_later_audio_witness :
  extract_cough (short_cough ++ [1; 1]) 3 = Ok [0; 1; 0].
Proof.
  apply (extract_cough_ignores_later_audio short_cough [0; 1; 0] [1; 1] 3).
  - reflexivity.
  - by_evaluation.
  - reflexivity.
Defined.

(** A recording at 3 Hz is still featurized with [sr = 22050]. *)
Lemma pipeline_featurizer_parameters_witness :
  In (CallMelspectrogram short_cough_segment 22050 128 512)
     (trace (toy_main_pipeline short_cough 3)) /\
  (22050%Z = 22050%Z /\ 128%Z = 128%Z /\ 512%Z = 512%Z).
Proof.
  assert (H : In (CallMelspectrogram short_cough_segment 22050 128 512)
                 (trace (toy_main_pipeline short_cough 3))).
  { vm_compute. auto 10. }
  split; [exact H|].
  exact (pipeline_featurizer_parameters
           toy_complex toy_abs toy_angle toy_polar toy_stft toy_istft
           toy_melspectrogram toy_power_to_db toy_model toy_exp
           short_cough 3 short_cough_segment 22050 128 512 H).
Defined.

Lemma featurizer_input_at_most_one_second_witness :
  (Z.of_nat (length short_cough_segment) <= 3)%Z /\
  ((Z.of_nat (length short_cough) <= 3)%Z ->
   short_cough_segment = short_cough) /\
  ((3 < Z.of_nat (length short_cough))%Z ->
   short_cough_segment <> [] /\
   value (toy_reduce_noise_and_extract_cough short_cough 3 (3 # 2)) =
     Ok short_cough_segment).
Proof.
  apply (featurizer_input_at_most_one_second
           toy_complex toy_abs toy_angle toy_polar toy_stft toy_istft
           toy_melspectrogram toy_power_to_db toy_model toy_exp
           short_cough 3 short_cough_segment 22050 128 512).
  - reflexivity.
  - vm_compute. auto 10.
Defined.

Lemma pipeline_call_order_witness :
  trace (toy_main_pipeline short_cough 3) =
    [CallMelspectrogram short_cough 22050 128 512; CallModel] \/
  exists seg,
    value (toy_reduce_noise_and_extract_cough short_cough 3 (3 # 2)) = Ok seg /\
    trace (toy_main_pipeline short_cough 3) =
      [CallStft (py_slice short_cough 0 (Z.quot 3 2)); CallStft short_cough;
       CallIstft; CallMelspectrogram seg 22050 128 512; CallModel].
Proof.
  apply (pipeline_call_order
           toy_complex toy_abs toy_angle toy_polar toy_stft toy_istft
           toy_melspectrogram toy_power_to_db toy_model toy_exp
           short_cough 3
           ("viral"%string,
            [("neither"%string, 1 # 8); ("viral"%string, 5 # 8);
             ("bacterial"%string, 2 # 8)])).
  by_evaluation.
Defined.

Lemma pipeline_label_in_vocabulary_witness :
  In "viral"%string class_names_main /\
  dict_keys [("neither"%string, 1 # 8); ("viral"%string, 5 # 8);
             ("bacterial"%string, 2 # 8)] = class_names_main.
Proof.
  apply (pipeline_label_in_vocabulary
           toy_complex toy_abs toy_angle toy_polar toy_stft toy_istft
           toy_melspectrogram toy_power_to_db toy_model toy_exp
           short_cough 3).
  by_evaluation.
Defined.

Lemma pipeline_report_witness :
  exists p1 p2 p3,
    [("neither"%string, 1 # 8); ("viral"%string, 5 # 8);
     ("bacterial"%string, 2 # 8)] =
    [("neither"%string, p1); ("viral"%string, p2); ("bacterial"%string, p3)] /\
    report "viral"
      [("neither"%string, 1 # 8); ("viral"%string, 5 # 8);
       ("bacterial"%string, 2 # 8)] =
    [("Prediction: " ++ "viral" ++ newline)%string;
     ("Class probabilities:" ++ newline)%string;
     ("  neither: " ++ format_4f p1 ++ newline)%string;
     ("  viral: " ++ format_4f p2 ++ newline)%string;
     ("  bacterial: " ++ format_4f p3 ++ newline)%string].
Proof.
  destruct (pipeline_report
              toy_complex toy_abs toy_angle toy_polar toy_stft toy_istft
              toy_melspectrogram toy_power_to_db toy_model toy_exp
              toy_exp_pos short_cough 3 "viral"%string
              [("neither"%string, 1 # 8); ("viral"%string, 5 # 8);
               ("bacterial"%string, 2 # 8)])
    as [p1 [p2 [p3 [Hd [Hr _]]]]].
  - by_evaluation.
  - exists p1, p2, p3. split; assumption.
Defined.

(** An unset and an empty session id write to the same key. *)
Lemma session_keys_collide_iff_witness :
  output_key None = output_key (Some EmptyString) /\
  input_prefix None = input_prefix (Some EmptyString).
Proof.
  destruct (session_keys_collide_iff None (Some EmptyString)) as [Hio Hk].
  assert (H : output_key None = output_key (Some EmptyString)).
  { apply Hk. right. split; [now left | now right]. }
  split; [exact H | now apply Hio].
Defined.
